(** * Blackwell's addition game: backward induction, minimax and alpha-beta

    A shallow embedding of [src/minimax/game_addition_demo.py]:
    [solve_addition_game], [verify_analytical_solution], [minimax_tree],
    [minimax_ab_tree], the game loop of [demo_game_play] and what the other
    demos compute ([demo_bellman_table], [demo_comparison_methods],
    [demo_parametric_analysis], [demo_strategy_walkthrough],
    [demo_full_game_tree]), followed by the properties of the solver that
    the specification states and further properties of the code.

    Python integers are [Z]; the values stored in the tables are Python
    numbers that are either an [int] or one of the floats [-math.inf] and
    [math.inf], which is the type [num] below.  Python lists are [list]s
    read and written through [py_getitem] and [py_setitem], which raise
    [IndexError] exactly where Python does. *)

From stdpp Require Import base list.
From Stdlib Require Import ZArith Lia Bool.

Local Open Scope Z_scope.

(** ** Python numbers: integers and the two float infinities *)

Inductive num : Type :=
  | NegInf
  | Int (z : Z)
  | PosInf.

(** [-x] *)
Definition num_neg (x : num) : num :=
  match x with
  | NegInf => PosInf
  | Int z => Int (- z)
  | PosInf => NegInf
  end.

(** [x < y] *)
Definition num_lt (x y : num) : bool :=
  match x, y with
  | NegInf, NegInf => false
  | NegInf, _ => true
  | Int _, NegInf => false
  | Int a, Int b => a <? b
  | Int _, PosInf => true
  | PosInf, _ => false
  end.

(** [x > y] *)
Definition num_gt (x y : num) : bool := num_lt y x.

(** [x >= y] *)
Definition num_ge (x y : num) : bool := negb (num_lt x y).

(** [x == y] *)
Definition num_eqb (x y : num) : bool :=
  match x, y with
  | NegInf, NegInf => true
  | Int a, Int b => a =? b
  | PosInf, PosInf => true
  | _, _ => false
  end.

(** [max(x, y)]: the first argument is kept unless the second is greater. *)
Definition num_max (x y : num) : num := if num_gt y x then y else x.

(** [min(x, y)]: the first argument is kept unless the second is smaller. *)
Definition num_min (x y : num) : num := if num_lt y x then y else x.

(** ** Exceptions and results *)

Inductive exn : Type :=
  | IndexError
  | TypeError
  | ZeroDivisionError.

Inductive res (A : Type) : Type :=
  | Ok (a : A)
  | Raise (e : exn).

Arguments Ok {A} a.
Arguments Raise {A} e.

(** Sequencing: an exception raised by the first computation propagates. *)
#[global] Instance res_bind : MBind res := fun A B f r =>
  match r with
  | Ok a => f a
  | Raise e => Raise e
  end.

(** [a % b] on integers: the result has the sign of [b], as [Z.modulo]. *)
Definition py_mod (a b : Z) : res Z :=
  if b =? 0 then Raise ZeroDivisionError else Ok (a mod b).

(** ** Python lists and ranges *)

(** [[x] * n]: empty when [n <= 0]. *)
Definition py_repeat {A : Type} (x : A) (n : Z) : list A :=
  replicate (Z.to_nat n) x.

(** The position a Python index denotes in a list of length [len]:
    negative indices count from the end. *)
Definition py_index (len i : Z) : option nat :=
  if (0 <=? i) && (i <? len) then Some (Z.to_nat i)
  else if (i <? 0) && (- len <=? i) then Some (Z.to_nat (len + i))
  else None.

(** [l[i]] *)
Definition py_getitem {A : Type} (l : list A) (i : Z) : res A :=
  match py_index (Z.of_nat (length l)) i with
  | Some n =>
      match l !! n with
      | Some x => Ok x
      | None => Raise IndexError
      end
  | None => Raise IndexError
  end.

(** [l[i] = x] *)
Definition py_setitem {A : Type} (l : list A) (i : Z) (x : A) : res (list A) :=
  match py_index (Z.of_nat (length l)) i with
  | Some n => Ok (<[n := x]> l)
  | None => Raise IndexError
  end.

(** [range(start, stop)] *)
Definition py_range (start stop : Z) : list Z :=
  map (fun j => start + Z.of_nat j) (seq 0 (Z.to_nat (stop - start))).

(** [range(start, stop, -1)] *)
Definition py_range_down (start stop : Z) : list Z :=
  map (fun j => start - Z.of_nat j) (seq 0 (Z.to_nat (start - stop))).

(** ** PART 2: backward induction *)

(** The dictionary returned by [solve_addition_game]. *)
Record solution : Type := Solution {
  sol_V : list num;
  sol_policy : list (option Z);
  sol_k : Z;
  sol_N : Z
}.

(** The value [val] of move [i] at state [s]: [-1] for a busting move,
    else the negated value of the state reached. *)
Definition move_value (N : Z) (V : list num) (s i : Z) : res num :=
  let s_next := s + i in
  if s_next >? N then Ok (Int (-1))
  else v ← py_getitem V s_next; Ok (num_neg v).

(** The body of [for i in range(1, k + 1)] in [solve_addition_game],
    run over the moves still to scan, with the current [best_val] and
    [best_move]. *)
Fixpoint scan_moves (N : Z) (V : list num) (s : Z) (moves : list Z)
    (best_val : num) (best_move : option Z) : res (num * option Z) :=
  match moves with
  | [] => Ok (best_val, best_move)
  | i :: rest =>
      val ← move_value N V s i;
      if num_gt val best_val
      then scan_moves N V s rest val (Some i)
      else scan_moves N V s rest best_val best_move
  end.

(** The body of [for s in range(N - 1, -1, -1)]. *)
Fixpoint solve_loop (k N : Z) (states : list Z) (V : list num)
    (policy : list (option Z)) : res (list num * list (option Z)) :=
  match states with
  | [] => Ok (V, policy)
  | s :: rest =>
      '(best_val, best_move) ← scan_moves N V s (py_range 1 (k + 1)) NegInf None;
      V' ← py_setitem V s best_val;
      policy' ← py_setitem policy s best_move;
      solve_loop k N rest V' policy'
  end.

Definition solve_addition_game (k N : Z) : res solution :=
  let V := py_repeat (Int 0) (N + 1) in
  let policy := py_repeat (Some 0) (N + 1) in
  V ← py_setitem V N (Int (-1));
  policy ← py_setitem policy N None;
  '(V, policy) ← solve_loop k N (py_range_down (N - 1) (-1)) V policy;
  Ok (Solution V policy k N).

(** ** PART 3 and 4: the closed form and its check against the table *)

(** The formula of the modular arithmetic theorem,
    [-1 if (N - s) % (k + 1) == 0 else +1], for [k + 1 <> 0]. *)
Definition closed_form (s k N : Z) : Z :=
  if (N - s) mod (k + 1) =? 0 then -1 else 1.

(** The loop of [verify_analytical_solution] over the states still to check. *)
Fixpoint verify_loop (k N : Z) (V : list num) (states : list Z) : res bool :=
  match states with
  | [] => Ok true
  | s :: rest =>
      r ← py_mod (N - s) (k + 1);
      let expected := if r =? 0 then -1 else 1 in
      v ← py_getitem V s;
      if negb (num_eqb v (Int expected)) then Ok false
      else verify_loop k N V rest
  end.

Definition verify_analytical_solution (k N : Z) : res bool :=
  sol ← solve_addition_game k N;
  verify_loop k N (sol_V sol) (py_range 0 (N + 1)).

(** ** PART 5: explicit game tree search *)

(** The recursion of the two searches is on the running sum, which grows
    towards [N]; it is written here with a [fuel] that bounds the depth, and
    [None] is the answer of a search that ran out of it.  [stats.nodes] is
    threaded through as the last argument and returned with the value. *)

Section tree_loops.
(** The recursive call of the enclosing search on a child state, from the
    current counter. *)
Variable child : Z -> Z -> option (num * Z).

(** [for i in range(1, k + 1)] at a MAX node of [minimax_tree]. *)
Fixpoint max_loop (s N : Z) (moves : list Z) (best : num) (nodes : Z)
    : option (num * Z) :=
  match moves with
  | [] => Some (best, nodes)
  | i :: rest =>
      match (if s + i <=? N then child (s + i) nodes
             else Some (Int (-1), nodes)) with
      | Some (val, nodes') => max_loop s N rest (num_max best val) nodes'
      | None => None
      end
  end.

(** [for i in range(1, k + 1)] at a MIN node of [minimax_tree]. *)
Fixpoint min_loop (s N : Z) (moves : list Z) (best : num) (nodes : Z)
    : option (num * Z) :=
  match moves with
  | [] => Some (best, nodes)
  | i :: rest =>
      match (if s + i <=? N then child (s + i) nodes
             else Some (Int 1, nodes)) with
      | Some (val, nodes') => min_loop s N rest (num_min best val) nodes'
      | None => None
      end
  end.
End tree_loops.

Fixpoint minimax_tree_fuel (fuel : nat) (s k N : Z) (is_player1 : bool)
    (nodes : Z) : option (num * Z) :=
  match fuel with
  | O => None
  | S fuel' =>
      let nodes := nodes + 1 in
      if s >=? N then
        if is_player1 then Some (Int (-1), nodes) else Some (Int 1, nodes)
      else if is_player1 then
        max_loop (fun s' n => minimax_tree_fuel fuel' s' k N false n)
                 s N (py_range 1 (k + 1)) NegInf nodes
      else
        min_loop (fun s' n => minimax_tree_fuel fuel' s' k N true n)
                 s N (py_range 1 (k + 1)) PosInf nodes
  end.

Section ab_loops.
(** The recursive call on a child state with the current window and
    counter. *)
Variable child : Z -> num -> num -> Z -> option (num * Z).

(** The loop of a MAX node of [minimax_ab_tree]; [break] returns at once. *)
Fixpoint ab_max_loop (s N : Z) (moves : list Z) (best alpha beta : num)
    (nodes : Z) : option (num * Z) :=
  match moves with
  | [] => Some (best, nodes)
  | i :: rest =>
      match (if s + i >? N then Some (Int (-1), nodes)
             else child (s + i) alpha beta nodes) with
      | Some (val, nodes') =>
          let best := num_max best val in
          let alpha := num_max alpha best in
          if num_ge alpha beta then Some (best, nodes')
          else ab_max_loop s N rest best alpha beta nodes'
      | None => None
      end
  end.

(** The loop of a MIN node of [minimax_ab_tree]. *)
Fixpoint ab_min_loop (s N : Z) (moves : list Z) (best alpha beta : num)
    (nodes : Z) : option (num * Z) :=
  match moves with
  | [] => Some (best, nodes)
  | i :: rest =>
      match (if s + i >? N then Some (Int 1, nodes)
             else child (s + i) alpha beta nodes) with
      | Some (val, nodes') =>
          let best := num_min best val in
          let beta := num_min beta best in
          if num_ge alpha beta then Some (best, nodes')
          else ab_min_loop s N rest best alpha beta nodes'
      | None => None
      end
  end.
End ab_loops.

Fixpoint minimax_ab_tree_fuel (fuel : nat) (s k N : Z) (is_player1 : bool)
    (alpha beta : num) (nodes : Z) : option (num * Z) :=
  match fuel with
  | O => None
  | S fuel' =>
      let nodes := nodes + 1 in
      if s >=? N then
        Some (if is_player1 then Int (-1) else Int 1, nodes)
      else if is_player1 then
        ab_max_loop (fun s' a b n => minimax_ab_tree_fuel fuel' s' k N false a b n)
                    s N (py_range 1 (k + 1)) NegInf alpha beta nodes
      else
        ab_min_loop (fun s' a b n => minimax_ab_tree_fuel fuel' s' k N true a b n)
                    s N (py_range 1 (k + 1)) PosInf alpha beta nodes
  end.

(** Every call goes to a larger sum and stops at [s >= N], so
    [N - s + 1] levels are enough. *)
Definition tree_fuel (s N : Z) : nat := S (Z.to_nat (N - s)).

(** [minimax_tree(s, k, N, is_player1, stats)] with [stats.nodes = nodes]
    at the call: the value returned and [stats.nodes] afterwards. *)
Definition minimax_tree (s k N : Z) (is_player1 : bool) (nodes : Z)
    : option (num * Z) :=
  minimax_tree_fuel (tree_fuel s N) s k N is_player1 nodes.

(** [minimax_ab_tree(s, k, N, is_player1, alpha, beta, stats)]. *)
Definition minimax_ab_tree (s k N : Z) (is_player1 : bool) (alpha beta : num)
    (nodes : Z) : option (num * Z) :=
  minimax_ab_tree_fuel (tree_fuel s N) s k N is_player1 alpha beta nodes.

(** ** The game loop of [demo_game_play] *)

Inductive player : Type := PlayerI | PlayerII.

Definition mover (is_p1 : bool) : player := if is_p1 then PlayerI else PlayerII.

Definition opponent (p : player) : player :=
  match p with PlayerI => PlayerII | PlayerII => PlayerI end.

(** One printed [Move ...] line: the move number, the mover, the sum before,
    the value [V(s)] shown ([v_current], which is [None] above [N]), the move
    picked and the sum after. *)
Record move_line : Type := MoveLine {
  ml_num : Z;
  ml_player : player;
  ml_s : Z;
  ml_value : option num;
  ml_pick : Z;
  ml_sum : Z
}.

(** What a finished game leaves: the [Move] lines in order, the player named
    in the [LOSES] line, and the returned winner. *)
Record outcome : Type := Outcome {
  out_log : list move_line;
  out_loser : player;
  out_winner : player
}.

(** The suboptimal branch: [for j in range(1, k + 1)] keeping the first
    move of least value. *)
Fixpoint worst_scan (N : Z) (V : list num) (s : Z) (moves : list Z)
    (worst_val : num) (i : Z) : res (num * Z) :=
  match moves with
  | [] => Ok (worst_val, i)
  | j :: rest =>
      val ← (if s + j <=? N then v ← py_getitem V (s + j); Ok (num_neg v)
             else Ok (Int (-1)));
      if num_lt val worst_val
      then worst_scan N V s rest val j
      else worst_scan N V s rest worst_val i
  end.

(** [while True:], one iteration per unit of [fuel]; [None] when the
    iterations allowed are used up before the game returns. *)
Fixpoint play_loop (fuel : nat) (k N : Z) (V : list num) (policy : list (option Z))
    (p1_optimal p2_optimal : bool) (s : Z) (is_p1 : bool) (move_num : Z)
    (log : list move_line) : option (res outcome) :=
  match fuel with
  | O => None
  | S fuel' =>
      let player := mover is_p1 in
      match (if s <=? N then v ← py_getitem V s; Ok (Some v) else Ok None) with
      | Raise e => Some (Raise e)
      | Ok v_current =>
          if s =? N then
            let i := 1 in
            match py_getitem V s with
            | Raise e => Some (Raise e)
            | Ok v =>
                Some (Ok (Outcome (log ++ [MoveLine move_num player s (Some v) i (s + i)])
                                  player (if is_p1 then PlayerII else PlayerI)))
            end
          else
            match (if (is_p1 && p1_optimal) || (negb is_p1 && p2_optimal)
                   then m ← py_getitem policy s;
                        match m with Some i => Ok i | None => Raise TypeError end
                   else '(_, i) ← worst_scan N V s (py_range 1 (k + 1)) PosInf 1;
                        Ok i) with
            | Raise e => Some (Raise e)
            | Ok i =>
                let s_new := s + i in
                let log := log ++ [MoveLine move_num player s v_current i s_new] in
                if s_new >? N then
                  Some (Ok (Outcome log player (if is_p1 then PlayerII else PlayerI)))
                else
                  match py_getitem V s_new with
                  | Raise e => Some (Raise e)
                  | Ok opp_val =>
                      play_loop fuel' k N V policy p1_optimal p2_optimal
                                s_new (negb is_p1) (move_num + 1) log
                  end
            end
      end
  end.

Definition demo_game_play (fuel : nat) (k N : Z) (p1_optimal p2_optimal : bool)
    : option (res outcome) :=
  match solve_addition_game k N with
  | Raise e => Some (Raise e)
  | Ok sol =>
      play_loop fuel k N (sol_V sol) (sol_policy sol) p1_optimal p2_optimal
                0 true 1 []
  end.

(** ** The demos built on the solver *)

(** One line of the table of [demo_bellman_table]: the state, [V(s)], the
    move shown ([None] for [any*]), the remainder [(N - s) mod (k + 1)], and
    whether the result column reads [LOSE (L)]. *)
Record table_row : Type := TableRow {
  row_s : Z;
  row_V : num;
  row_move : option Z;
  row_r : Z;
  row_lose : bool
}.

(** [for s in range(N + 1)] in [demo_bellman_table]. *)
Fixpoint table_rows (k N : Z) (V : list num) (policy : list (option Z))
    (states : list Z) : res (list table_row) :=
  match states with
  | [] => Ok []
  | s :: rest =>
      r ← py_mod (N - s) (k + 1);
      v ← py_getitem V s;
      let result := num_eqb v (Int (-1)) in
      move ← py_getitem policy s;
      rows ← table_rows k N V policy rest;
      Ok (TableRow s v move r result :: rows)
  end.

(** [[s for s in range(N + 1) if V[s] == -1]] *)
Fixpoint losing_positions (V : list num) (states : list Z) : res (list Z) :=
  match states with
  | [] => Ok []
  | s :: rest =>
      v ← py_getitem V s;
      losing ← losing_positions V rest;
      Ok (if num_eqb v (Int (-1)) then s :: losing else losing)
  end.

(** [demo_bellman_table]: the lines of the table and the list of losing
    positions printed under it. *)
Definition demo_bellman_table (k N : Z) : res (list table_row * list Z) :=
  sol ← solve_addition_game k N;
  _ ← py_mod N (k + 1);
  rows ← table_rows k N (sol_V sol) (sol_policy sol) (py_range 0 (N + 1));
  losing ← losing_positions (sol_V sol) (py_range 0 (N + 1));
  Ok (rows, losing).

(** What [demo_comparison_methods] computes: the value of each method, the
    node counts of the two searches, the winner named in the last line, and
    whether the line on the nodes saved by pruning is printed (the
    percentage in it is a float and is left out). *)
Record comparison : Type := Comparison {
  cmp_v_dp : num;
  cmp_v_mm : num;
  cmp_nodes_mm : Z;
  cmp_v_ab : num;
  cmp_nodes_ab : Z;
  cmp_v_formula : Z;
  cmp_winner : player;
  cmp_saved : bool
}.

Definition demo_comparison_methods (k N : Z) : option (res comparison) :=
  match solve_addition_game k N with
  | Raise e => Some (Raise e)
  | Ok sol =>
      match py_getitem (sol_V sol) 0 with
      | Raise e => Some (Raise e)
      | Ok v_dp =>
          match minimax_tree 0 k N true 0 with
          | None => None
          | Some (v_mm, nodes_mm) =>
              match minimax_ab_tree 0 k N true NegInf PosInf 0 with
              | None => None
              | Some (v_ab, nodes_ab) =>
                  match py_mod N (k + 1) with
                  | Raise e => Some (Raise e)
                  | Ok r =>
                      let v_formula := if r =? 0 then -1 else 1 in
                      let winner :=
                        if v_formula =? -1 then PlayerII else PlayerI in
                      Some (Ok (Comparison v_dp v_mm nodes_mm v_ab nodes_ab
                                           v_formula winner
                                           (nodes_mm >? nodes_ab)))
                  end
              end
          end
      end
  end.

(** A cell of the table of [demo_parametric_analysis]: the winner for
    [(k, N)], read off [V[0]]. *)
Fixpoint parametric_row (k : Z) (N_values : list Z) : res (list player) :=
  match N_values with
  | [] => Ok []
  | N :: rest =>
      sol ← solve_addition_game k N;
      v ← py_getitem (sol_V sol) 0;
      let winner := if num_eqb v (Int (-1)) then PlayerII else PlayerI in
      cells ← parametric_row k rest;
      Ok (winner :: cells)
  end.

Fixpoint parametric_rows (k_values N_values : list Z) : res (list (list player)) :=
  match k_values with
  | [] => Ok []
  | k :: rest =>
      row ← parametric_row k N_values;
      rows ← parametric_rows rest N_values;
      Ok (row :: rows)
  end.

(** [demo_parametric_analysis]: one row per [k] in [range(2, 7)], one cell
    per [N] in [range(1, 26)]. *)
Definition demo_parametric_analysis : res (list (list player)) :=
  parametric_rows (py_range 2 7) (py_range 1 26).

(** [while t <= N: targets.append(t); t += k + 1] in
    [demo_strategy_walkthrough], one iteration per unit of [fuel]. *)
Fixpoint targets_loop (fuel : nat) (k N t : Z) (targets : list Z)
    : option (list Z) :=
  match fuel with
  | O => None
  | S fuel' =>
      if t <=? N then targets_loop fuel' k N (t + (k + 1)) (targets ++ [t])
      else Some targets
  end.

(** What [demo_strategy_walkthrough] lists before the game: the multiples
    of [k + 1] up to [N] when [k + 1] divides [N], else the first move [r]
    and the target sums of Player I. *)
Inductive walkthrough : Type :=
  | LosingStart (multiples : list Z)
  | WinningStart (r : Z) (targets : list Z).

(** [demo_strategy_walkthrough], with [fuel] iterations for each of its
    loops: the lists it prints and the game of two optimal players it then
    plays. *)
Definition demo_strategy_walkthrough (fuel : nat) (k N : Z)
    : option (res (walkthrough * outcome)) :=
  match py_mod N (k + 1) with
  | Raise e => Some (Raise e)
  | Ok r =>
      match (if r =? 0
             then Some (LosingStart
                          (map (fun j => j * (k + 1))
                               (py_range 1 (N / (k + 1) + 1))))
             else match targets_loop fuel k N r [] with
                  | Some targets => Some (WinningStart r targets)
                  | None => None
                  end) with
      | None => None
      | Some listed =>
          match demo_game_play fuel k N true true with
          | None => None
          | Some (Raise e) => Some (Raise e)
          | Some (Ok out) => Some (Ok (listed, out))
          end
      end
  end.

(** ** The printed game tree *)

(** The lines [print_tree] prints: the line of a state at [N] (forced
    bust), the line of a state below [N] with its value and whether it is
    tagged [W], the line of a busting move with whether it is marked
    optimal, and the line of a safe move with whether it is starred and
    whether it is drawn as the last branch. *)
Inductive tree_line : Type :=
  | ForcedLine (s depth : Z) (is_p1 : bool) (v : num)
  | NodeLine (s depth : Z) (is_p1 : bool) (v : num) (won : bool)
  | BustLine (s depth i s_new : Z) (opt : bool)
  | PickLine (s depth i : Z) (opt last : bool).

(** [i == sol['policy'][s]] *)
Definition is_policy_move (i : Z) (m : option Z) : bool :=
  match m with
  | Some mv => i =? mv
  | None => false
  end.

Section print_loops.
(** The recursive call of [print_tree] on a child, from the lines printed
    so far. *)
Variable child : Z -> Z -> bool -> list tree_line -> option (res (list tree_line)).

(** [for i in range(1, k + 1)] in [print_tree]. *)
Fixpoint print_moves (k N : Z) (policy : list (option Z)) (s depth : Z)
    (is_p1 : bool) (moves : list Z) (out : list tree_line)
    : option (res (list tree_line)) :=
  match moves with
  | [] => Some (Ok out)
  | i :: rest =>
      let s_new := s + i in
      if s_new >? N then
        match py_getitem policy s with
        | Raise e => Some (Raise e)
        | Ok m =>
            print_moves k N policy s depth is_p1 rest
                        (out ++ [BustLine s depth i s_new (is_policy_move i m)])
        end
      else
        match py_getitem policy s with
        | Raise e => Some (Raise e)
        | Ok m =>
            match child s_new (depth + 1) (negb is_p1)
                        (out ++ [PickLine s depth i (is_policy_move i m)
                                          (negb (i <? k))]) with
            | Some (Ok out') => print_moves k N policy s depth is_p1 rest out'
            | Some (Raise e) => Some (Raise e)
            | None => None
            end
        end
  end.
End print_loops.

(** [print_tree(s, depth, is_p1, path)] of [demo_full_game_tree]; the
    [path] it passes along is never read.  The recursion is on the sum, with
    [fuel] for its depth as in the searches. *)
Fixpoint print_tree (fuel : nat) (k N : Z) (V : list num)
    (policy : list (option Z)) (s depth : Z) (is_p1 : bool)
    (out : list tree_line) : option (res (list tree_line)) :=
  match fuel with
  | O => None
  | S fuel' =>
      match (if s <=? N then v ← py_getitem V s; Ok (Some v) else Ok None) with
      | Raise e => Some (Raise e)
      | Ok v_label =>
          if s =? N then
            match py_getitem V s with
            | Raise e => Some (Raise e)
            | Ok v => Some (Ok (out ++ [ForcedLine s depth is_p1 v]))
            end
          else if s >? N then Some (Ok out)
          else
            match py_getitem V s with
            | Raise e => Some (Raise e)
            | Ok v =>
                print_moves (fun s' d' p' o =>
                               print_tree fuel' k N V policy s' d' p' o)
                            k N policy s depth is_p1 (py_range 1 (k + 1))
                            (out ++ [NodeLine s depth is_p1 v
                                              (num_eqb v (Int 1))])
            end
      end
  end.

(** What [demo_full_game_tree] does: nothing but a notice for parameters
    it finds too large, else the tree. *)
Inductive tree_output : Type :=
  | Skipped
  | Printed (lines : list tree_line).

Definition demo_full_game_tree (k N : Z) : option (res tree_output) :=
  if (N >? 8) || (k >? 3) then Some (Ok Skipped)
  else
    match solve_addition_game k N with
    | Raise e => Some (Raise e)
    | Ok sol =>
        match print_tree (tree_fuel 0 N) k N (sol_V sol) (sol_policy sol)
                         0 0 true [] with
        | Some (Ok lines) => Some (Ok (Printed lines))
        | Some (Raise e) => Some (Raise e)
        | None => None
        end
    end.

(** ** Specification functions

    What the tables and searches are compared with in the properties below. *)

(** The remainder that decides a state. *)
Definition residue (k N s : Z) : Z := (N - s) mod (k + 1).

(** The move the table keeps at a state below [N]. *)
Definition policy_closed (k N s : Z) : Z :=
  if residue k N s =? 0 then 1 else residue k N s.

(** The value of move [a] to the mover at [s], given the closed form
    above [s]. *)
Definition candidate (k N s a : Z) : Z :=
  if a =? residue k N s then 1 else -1.

(** The entry the policy table holds at state [j]. *)
Definition policy_entry (k N j : Z) : option Z :=
  if j =? N then None else Some (policy_closed k N j).

(** The tables are filled in from state [t] upwards. *)
Definition filled_from (k N t : Z) (V : list num) (policy : list (option Z)) : Prop :=
  length V = Z.to_nat (N + 1) /\ length policy = Z.to_nat (N + 1) /\
  forall j, t <= j <= N ->
    V !! Z.to_nat j = Some (Int (closed_form j k N)) /\
    policy !! Z.to_nat j = Some (policy_entry k N j).

(** Values above [s] are the closed form. *)
Definition values_above (k N s : Z) (V : list num) : Prop :=
  forall j, s < j <= N -> V !! Z.to_nat j = Some (Int (closed_form j k N)).

(** [best_val] and [best_move] once the moves [1..a] are scanned at a
    state of residue [r]. *)
Definition scan_state (r a : Z) : num * option Z :=
  if a <=? 0 then (NegInf, None)
  else if (r =? 0) || (a <? r) then (Int (-1), Some 1)
  else (Int 1, Some r).

(** The value to Player I of state [s <= N] when [is_player1] says who
    moves: the closed form for the mover, negated when Player II moves. *)
Definition tree_value (k N : Z) (is_player1 : bool) (s : Z) : Z :=
  if is_player1 then closed_form s k N else - closed_form s k N.

(** The numbers a search of this game handles: the payoffs [-1] and [+1]
    and the two infinities that start the bounds. *)
Definition game_num (x : num) : bool :=
  match x with
  | NegInf | PosInf => true
  | Int z => (z =? -1) || (z =? 1)
  end.

(** All of them. *)
Definition game_nums : list num := [NegInf; Int (-1); Int 1; PosInf].

(** [P] holds of every number of the game. *)
Definition for_game (P : num -> bool) : bool := forallb P game_nums.

(** What a fail-soft alpha-beta search with window [(alpha, beta)] may
    return as [r] at a node of true minimax value [v]: an upper bound on [v]
    at or below [alpha], a lower bound at or above [beta], and [v] itself
    strictly inside the window. *)
Definition ab_rel (alpha beta v r : num) : bool :=
  implb (num_ge alpha r) (num_ge r v) &&
  implb (num_ge r beta) (num_ge v r) &&
  implb (num_lt alpha r && num_lt r beta) (num_eqb r v).

(** The invariant of the loop of a MAX node entered with [alpha0]: no cutoff
    yet, and the pruned [b] bounds the plain [vb] from above, exactly so once
    it exceeds [alpha0]. *)
Definition max_inv (alpha0 beta b vb : num) : bool :=
  num_lt (num_max alpha0 b) beta &&
  implb (num_ge alpha0 b) (num_ge b vb) &&
  implb (num_lt alpha0 b) (num_eqb b vb).

(** The same for a MIN node entered with [beta0]. *)
Definition min_inv (alpha beta0 b vb : num) : bool :=
  num_lt alpha (num_min beta0 b) &&
  implb (num_ge b beta0) (num_ge vb b) &&
  implb (num_lt b beta0) (num_eqb b vb).

(** One iteration at a MAX node, from the invariant and the child's
    relation: the new [alpha] is the bound of the invariant; on a cutoff
    the result is related to any final value [v] above the plain best, and
    otherwise the invariant is kept. *)
Definition max_step_ok (alpha0 beta b vb vi ri v : num) : bool :=
  implb (max_inv alpha0 beta b vb && ab_rel (num_max alpha0 b) beta vi ri)
    (let b' := num_max b ri in
     let vb' := num_max vb vi in
     let a' := num_max (num_max alpha0 b) b' in
     num_eqb a' (num_max alpha0 b') &&
     (if num_ge a' beta then implb (num_ge v vb') (ab_rel alpha0 beta v b')
      else max_inv alpha0 beta b' vb')).

Definition min_step_ok (alpha beta0 b vb vi ri v : num) : bool :=
  implb (min_inv alpha beta0 b vb && ab_rel alpha (num_min beta0 b) vi ri)
    (let b' := num_min b ri in
     let vb' := num_min vb vi in
     let b1 := num_min (num_min beta0 b) b' in
     num_eqb b1 (num_min beta0 b') &&
     (if num_ge alpha b1 then implb (num_ge vb' v) (ab_rel alpha beta0 v b')
      else min_inv alpha beta0 b' vb')).

(** What the lines printed from move [first_num] on say of a finished game:
    every move raises the sum, the last line is a move above [N] by the
    player named as the loser, the winner returned is the other player, and
    the moves are numbered consecutively up to the last one. *)
Definition game_over (N first_num : Z) (lines : list move_line) (out : outcome)
    : Prop :=
  Forall (fun l => ml_s l < ml_sum l) lines /\
  exists l, last lines = Some l /\ N < ml_sum l /\
            ml_player l = out_loser out /\
            out_winner out = opponent (out_loser out) /\
            ml_num l = first_num + Z.of_nat (length lines) - 1.

(** Parameters outside the game: [k < 1] or [N < 0]. *)
Definition invalid_parameters (k N : Z) : Prop := k < 1 \/ N < 0.

(** A call rejected for its parameters: an exception is raised, and it is
    not the out-of-range index of a later table access. *)
Definition signals_invalid_parameter (r : res solution) : Prop :=
  exists e, r = Raise e /\ e <> IndexError.

(** The tables of a run with no move to scan, from state [t] upwards:
    only the base case holds a value. *)
Definition unsolved_from (N t : Z) (V : list num) (policy : list (option Z))
    : Prop :=
  length V = Z.to_nat (N + 1) /\ length policy = Z.to_nat (N + 1) /\
  forall j, t <= j <= N ->
    V !! Z.to_nat j = Some (if j =? N then Int (-1) else NegInf) /\
    policy !! Z.to_nat j = Some None.

(** A search result with [d] more on its counter. *)
Definition shift (d : Z) (r : option (num * Z)) : option (num * Z) :=
  match r with
  | Some (v, nodes) => Some (v, nodes + d)
  | None => None
  end.

(** The states an optimal side brings about, [w] telling whether that side
    is Player I: won for it when it is to move, lost for the other side when
    that one is. *)
Definition on_course (k N : Z) (w : bool) (s : Z) (is_p1 : bool) : Prop :=
  if Bool.eqb is_p1 w then residue k N s <> 0 else residue k N s = 0.

(** [s] is lost for its mover by the closed form. *)
Definition lost_state (k N s : Z) : bool := residue k N s =? 0.

(** The states of [range(a, N + 1)] lost for their mover, in order. *)
Definition lost_from (k N a : Z) : list Z :=
  List.filter (lost_state k N) (py_range a (N + 1)).

(** The sums [t], [t + (k + 1)], [t + 2 (k + 1)], ... up to [N]. *)
Definition progression (k N t : Z) : list Z :=
  map (fun j => t + Z.of_nat j * (k + 1))
      (seq 0 (Z.to_nat ((N - t) / (k + 1) + 1))).

Definition player_eqb (p q : player) : bool :=
  match p, q with
  | PlayerI, PlayerI | PlayerII, PlayerII => true
  | _, _ => false
  end.

(** The sums reached by the moves of player [p] in the printed lines. *)
Definition sums_of (p : player) (lines : list move_line) : list Z :=
  map ml_sum (List.filter (fun l => player_eqb (ml_player l) p) lines).

(** The line of the table of [demo_bellman_table] at state [s]. *)
Definition row_at (k N s : Z) : table_row :=
  TableRow s (Int (closed_form s k N)) (policy_entry k N s)
           ((N - s) mod (k + 1)) (lost_state k N s).

(** A line of [print_tree] that shows a state. *)
Definition is_state_line (l : tree_line) : bool :=
  match l with
  | ForcedLine _ _ _ _ | NodeLine _ _ _ _ _ => true
  | _ => false
  end.

(** A line that shows a state below [N]. *)
Definition is_inner_line (l : tree_line) : bool :=
  match l with
  | NodeLine _ _ _ _ _ => true
  | _ => false
  end.

(** A safe move shown with the star of the optimal move. *)
Definition is_starred_pick (l : tree_line) : bool :=
  match l with
  | PickLine _ _ _ opt _ => opt
  | _ => false
  end.

(** No busting move is marked optimal in [l]. *)
Definition bust_unmarked (l : tree_line) : bool :=
  match l with
  | BustLine _ _ _ _ opt => negb opt
  | _ => true
  end.

(** The tag of a line agrees with the closed form: [W] exactly at the
    states that are not lost, and the value shown is the closed form. *)
Definition tag_agrees (k N : Z) (l : tree_line) : bool :=
  match l with
  | ForcedLine s _ _ v => (s =? N) && num_eqb v (Int (-1))
  | NodeLine s _ _ v won =>
      num_eqb v (Int (closed_form s k N)) && Bool.eqb won (negb (lost_state k N s))
  | _ => true
  end.

(** The states shown are as many as [minimax_tree] counts from sum 0. *)
Definition states_match_search (k N : Z) (lines : list tree_line) : bool :=
  match minimax_tree 0 k N true 0 with
  | Some (_, nodes) =>
      Z.of_nat (length (List.filter is_state_line lines)) =? nodes
  | None => false
  end.

(** The checks a printed tree passes. *)
Definition tree_consistent (k N : Z) (lines : list tree_line) : bool :=
  states_match_search k N lines &&
  forallb bust_unmarked lines &&
  forallb (tag_agrees k N) lines &&
  (length (List.filter is_starred_pick lines)
   =? length (List.filter is_inner_line lines))%nat.

(** * Properties *)

(** ** Ranges and list accesses *)

Lemma py_range_nil (a b : Z) : b <= a -> py_range a b = [].
Proof.
  intros H. unfold py_range.
  replace (Z.to_nat (b - a)) with 0%nat by lia. reflexivity.
Qed.

Lemma py_range_cons (a b : Z) : a < b -> py_range a b = a :: py_range (a + 1) b.
Proof.
  intros H. unfold py_range.
  replace (Z.to_nat (b - a)) with (S (Z.to_nat (b - (a + 1)))) by lia.
  cbn [seq map]. f_equal; [lia|].
  rewrite <- List.seq_shift, List.map_map.
  apply List.map_ext. intros j. lia.
Qed.

Lemma py_range_down_nil (a b : Z) : a <= b -> py_range_down a b = [].
Proof.
  intros H. unfold py_range_down.
  replace (Z.to_nat (a - b)) with 0%nat by lia. reflexivity.
Qed.

Lemma py_range_down_cons (a b : Z) :
  b < a -> py_range_down a b = a :: py_range_down (a - 1) b.
Proof.
  intros H. unfold py_range_down.
  replace (Z.to_nat (a - b)) with (S (Z.to_nat (a - 1 - b))) by lia.
  cbn [seq map]. f_equal; [lia|].
  rewrite <- List.seq_shift, List.map_map.
  apply List.map_ext. intros j. lia.
Qed.

Lemma py_index_inrange (len i : Z) :
  0 <= i < len -> py_index len i = Some (Z.to_nat i).
Proof.
  intros H. unfold py_index.
  destruct (Z.leb_spec 0 i); [|lia]. destruct (Z.ltb_spec i len); [|lia].
  reflexivity.
Qed.

Lemma py_index_empty (i : Z) : py_index 0 i = None.
Proof.
  unfold py_index.
  destruct (Z.leb_spec 0 i), (Z.ltb_spec i 0), (Z.leb_spec (- 0) i);
    cbn; try reflexivity; lia.
Qed.

Lemma py_getitem_lookup {A : Type} (l : list A) (i : Z) (x : A) :
  0 <= i -> l !! Z.to_nat i = Some x -> py_getitem l i = Ok x.
Proof.
  intros Hi Hx. unfold py_getitem.
  pose proof (lookup_lt_Some _ _ _ Hx) as Hlt.
  rewrite py_index_inrange by lia. rewrite Hx. reflexivity.
Qed.

Lemma py_setitem_inrange {A : Type} (l : list A) (i : Z) (x : A) :
  0 <= i < Z.of_nat (length l) ->
  py_setitem l i x = Ok (<[Z.to_nat i := x]> l).
Proof.
  intros Hi. unfold py_setitem. rewrite py_index_inrange by lia. reflexivity.
Qed.

Lemma length_py_repeat {A : Type} (x : A) (n : Z) :
  length (py_repeat x n) = Z.to_nat n.
Proof. apply length_replicate. Qed.

(** ** The order on numbers *)

(** Case analysis on every number in sight, leaving integer comparisons. *)
Ltac num_cases :=
  repeat match goal with
         | x : num |- _ => destruct x
         end;
  unfold num_max, num_min, num_ge, num_gt, num_lt in *; cbn in *;
  repeat match goal with
         | |- context [?a <? ?b] => destruct (Z.ltb_spec a b)
         | H : context [?a <? ?b] |- _ => destruct (Z.ltb_spec a b)
         end;
  cbn in *; try congruence; try discriminate; try (f_equal; lia); try lia.

(** ** The modular arithmetic of the game *)

Section arithmetic.
Variables k N : Z.
Hypothesis Hk : 1 <= k.

Lemma residue_bounds (s : Z) : 0 <= residue k N s <= k.
Proof. unfold residue. pose proof (Z.mod_pos_bound (N - s) (k + 1)). lia. Qed.

Lemma residue_le (s : Z) : s <= N -> residue k N s <= N - s.
Proof. intros H. unfold residue. apply Z.mod_le; lia. Qed.

(** From [s], exactly the move [residue k N s] reaches a state of residue 0. *)
Lemma residue_step (s a : Z) :
  1 <= a <= k -> residue k N (s + a) = 0 <-> a = residue k N s.
Proof.
  intros Ha. unfold residue.
  pose proof (Z.mod_pos_bound (N - s) (k + 1) ltac:(lia)) as Hr.
  pose proof (Z.div_mod (N - s) (k + 1) ltac:(lia)) as Hd.
  split.
  - intros H0.
    apply Z.mod_divide in H0; [|lia]. destruct H0 as [q Hq].
    assert (Hq' : (N - s) mod (k + 1) - a = (q - (N - s) / (k + 1)) * (k + 1)) by lia.
    assert (q - (N - s) / (k + 1) = 0) by nia. nia.
  - intros ->.
    replace (N - (s + (N - s) mod (k + 1)))
      with ((N - s) / (k + 1) * (k + 1)) by lia.
    apply Z.mod_mul. lia.
Qed.

Lemma closed_form_residue (s : Z) :
  closed_form s k N = if residue k N s =? 0 then -1 else 1.
Proof. reflexivity. Qed.

Lemma closed_form_at_N : closed_form N k N = -1.
Proof.
  unfold closed_form. rewrite Z.sub_diag, Z.mod_0_l by lia. reflexivity.
Qed.

Lemma candidate_safe (s a : Z) :
  1 <= a <= k -> - closed_form (s + a) k N = candidate k N s a.
Proof.
  intros Ha. unfold candidate. rewrite closed_form_residue.
  pose proof (residue_step s a Ha).
  destruct (Z.eqb_spec (residue k N (s + a)) 0), (Z.eqb_spec a (residue k N s)); lia.
Qed.

Lemma candidate_bust (s a : Z) : s <= N -> N < s + a -> candidate k N s a = -1.
Proof.
  intros Hs Ha. unfold candidate. pose proof (residue_le s Hs).
  destruct (Z.eqb_spec a (residue k N s)); lia.
Qed.
End arithmetic.

(** ** The backward induction computes the closed form *)

Section solver.
Variables k N : Z.
Hypothesis Hk : 1 <= k.
Hypothesis HN : 0 <= N.

Lemma read_candidate (V : list num) (s a : Z) :
  values_above k N s V -> 0 <= s <= N -> 1 <= a <= k ->
  move_value N V s a = Ok (Int (candidate k N s a)).
Proof.
  intros HV Hs Ha. unfold move_value. cbv zeta.
  destruct (Z.gtb_spec (s + a) N) as [Hb|Hb].
  - rewrite candidate_bust by lia. reflexivity.
  - rewrite (py_getitem_lookup V (s + a) (Int (closed_form (s + a) k N)));
      [|lia|apply HV; lia].
    cbn. rewrite candidate_safe by lia. reflexivity.
Qed.

Lemma scan_state_step (r a : Z) :
  1 <= a -> 0 <= r ->
  (let val := Int (if a =? r then 1 else -1) in
   if num_gt val (scan_state r (a - 1)).1
   then (val, Some a) else scan_state r (a - 1))
  = scan_state r a.
Proof.
  intros Ha Hr. unfold scan_state.
  destruct (Z.leb_spec (a - 1) 0), (Z.leb_spec a 0), (Z.eqb_spec a r),
    (Z.eqb_spec r 0), (Z.ltb_spec (a - 1) r), (Z.ltb_spec a r);
    cbn; try lia; try reflexivity; repeat f_equal; lia.
Qed.

Lemma scan_moves_from (V : list num) (s : Z) (n : nat) :
  values_above k N s V -> 0 <= s < N ->
  forall a, 1 <= a -> k + 1 - a = Z.of_nat n ->
  scan_moves N V s (py_range a (k + 1))
             (scan_state (residue k N s) (a - 1)).1
             (scan_state (residue k N s) (a - 1)).2
  = Ok (scan_state (residue k N s) k).
Proof.
  intros HV Hs. induction n as [|n IH]; intros a Ha Hn.
  - rewrite py_range_nil by lia. cbn.
    replace (a - 1) with k by lia. by destruct (scan_state _ k).
  - rewrite py_range_cons by lia. cbn [scan_moves].
    rewrite read_candidate by (auto; lia). cbn.
    pose proof (scan_state_step (residue k N s) a Ha
                  (proj1 (residue_bounds k N Hk s))) as Hstep.
    cbn zeta in Hstep. unfold candidate.
    specialize (IH (a + 1) ltac:(lia) ltac:(lia)).
    replace (a + 1 - 1) with a in IH by lia.
    rewrite <- Hstep in IH.
    destruct (num_gt _ _); exact IH.
Qed.

(** The inner loop at a state below [N]. *)
Lemma scan_moves_closed (V : list num) (s : Z) :
  values_above k N s V -> 0 <= s < N ->
  scan_moves N V s (py_range 1 (k + 1)) NegInf None
  = Ok (Int (closed_form s k N), Some (policy_closed k N s)).
Proof.
  intros HV Hs.
  pose proof (scan_moves_from V s (Z.to_nat k) HV Hs 1 ltac:(lia) ltac:(lia)) as H.
  change (scan_moves N V s (py_range 1 (k + 1)) NegInf None
          = Ok (scan_state (residue k N s) k)) in H.
  rewrite H. unfold scan_state, policy_closed.
  rewrite closed_form_residue.
  pose proof (residue_bounds k N Hk s).
  destruct (Z.leb_spec k 0), (Z.eqb_spec (residue k N s) 0),
    (Z.ltb_spec k (residue k N s)); cbn; try lia; reflexivity.
Qed.

(** The outer loop from state [t - 1] down to 0. *)
Lemma solve_loop_filled (n : nat) :
  forall t V policy, Z.of_nat n = t -> t <= N -> filled_from k N t V policy ->
  exists V' policy',
    solve_loop k N (py_range_down (t - 1) (-1)) V policy = Ok (V', policy') /\
    filled_from k N 0 V' policy'.
Proof.
  induction n as [|n IH]; intros t V policy Hn Ht HF.
  - rewrite py_range_down_nil by lia. exists V, policy. split; [reflexivity|].
    by replace 0 with t by lia.
  - rewrite py_range_down_cons by lia. cbn [solve_loop].
    destruct HF as (HlV & Hlp & HF).
    rewrite scan_moves_closed; [|intros j Hj; apply HF; lia|lia].
    cbn. rewrite !py_setitem_inrange by lia. cbn.
    apply IH; [lia|lia|].
    split; [|split]; [by rewrite length_insert..|].
    intros j Hj. destruct (Z.eq_dec j (t - 1)) as [->|Hne].
    + rewrite !list_lookup_insert_eq by lia.
      unfold policy_entry. destruct (Z.eqb_spec (t - 1) N); [lia|]. done.
    + rewrite !list_lookup_insert_ne by lia. apply HF. lia.
Qed.

(** The tables after the base case. *)
Lemma base_case_filled :
  filled_from k N N (<[Z.to_nat N := Int (-1)]> (py_repeat (Int 0) (N + 1)))
                (<[Z.to_nat N := None]> (py_repeat (Some 0) (N + 1))).
Proof.
  split; [|split]; [by rewrite length_insert, length_py_repeat..|].
  intros j Hj. replace j with N by lia.
  rewrite !list_lookup_insert_eq by (rewrite length_py_repeat; lia).
  rewrite closed_form_at_N by lia. unfold policy_entry.
  by rewrite Z.eqb_refl.
Qed.

(** The solver returns, and its tables are the closed form throughout. *)
Lemma solve_addition_game_closed :
  exists V policy,
    solve_addition_game k N = Ok (Solution V policy k N) /\
    filled_from k N 0 V policy.
Proof.
  unfold solve_addition_game.
  rewrite !py_setitem_inrange by (rewrite length_py_repeat; lia). cbn.
  destruct (solve_loop_filled (Z.to_nat N) N _ _ ltac:(lia) ltac:(lia)
              base_case_filled) as (V & policy & Hrun & HF).
  rewrite Hrun. cbn. eauto.
Qed.
End solver.

(** ** Plain minimax computes the closed form *)

Lemma num_min_neg (x y : num) :
  num_min (num_neg x) (num_neg y) = num_neg (num_max x y).
Proof. num_cases. Qed.

Lemma scan_state_max (r a : Z) :
  1 <= a -> 0 <= r ->
  num_max (scan_state r (a - 1)).1 (Int (if a =? r then 1 else -1))
  = (scan_state r a).1.
Proof.
  intros Ha Hr. rewrite <- (scan_state_step r a Ha Hr). cbn zeta.
  unfold num_max. by destruct (num_gt _ _).
Qed.

Lemma scan_state_last (k N s : Z) :
  1 <= k -> (scan_state (residue k N s) k).1 = Int (closed_form s k N).
Proof.
  intros Hk. unfold scan_state. rewrite closed_form_residue.
  pose proof (residue_bounds k N Hk s).
  destruct (Z.leb_spec k 0), (Z.eqb_spec (residue k N s) 0),
    (Z.ltb_spec k (residue k N s)); cbn; try lia; reflexivity.
Qed.

Section minimax_value.
Variables k N : Z.
Hypothesis Hk : 1 <= k.

Section loops.
Variable child : Z -> Z -> option (num * Z).
Variable s : Z.
Hypothesis Hs : s < N.
(** What the children return: [sign] is [-1] below a MAX node, whose
    children are valued for the opponent, and [1] below a MIN node. *)
Variable sign : Z.
Hypothesis Hchild : forall s' n, s < s' <= N ->
  exists n', child s' n = Some (Int (sign * closed_form s' k N), n') /\ n < n'.

Lemma max_loop_closed (cnt : nat) :
  sign = -1 ->
  forall a n, 1 <= a -> k + 1 - a = Z.of_nat cnt ->
  exists n',
    max_loop child s N (py_range a (k + 1))
             (scan_state (residue k N s) (a - 1)).1 n
    = Some ((scan_state (residue k N s) k).1, n') /\ n <= n'.
Proof.
  intros Hsign. induction cnt as [|cnt IH]; intros a n Ha Hcnt.
  - rewrite py_range_nil by lia. replace (a - 1) with k by lia.
    exists n. split; [reflexivity|lia].
  - rewrite py_range_cons by lia. cbn [max_loop].
    assert (exists n1,
      (if s + a <=? N then child (s + a) n else Some (Int (-1), n))
      = Some (Int (candidate k N s a), n1) /\ n <= n1) as (n1 & -> & Hn1).
    { destruct (Z.leb_spec (s + a) N).
      - destruct (Hchild (s + a) n ltac:(lia)) as (n1 & -> & Hn1).
        exists n1. rewrite <- candidate_safe by lia.
        split; [repeat f_equal; lia|lia].
      - exists n. rewrite candidate_bust by lia. split; [reflexivity|lia]. }
    unfold candidate.
    rewrite scan_state_max by (pose proof (residue_bounds k N Hk s); lia).
    destruct (IH (a + 1) n1 ltac:(lia) ltac:(lia)) as (n' & Hrun & Hn').
    replace (a + 1 - 1) with a in Hrun by lia.
    exists n'. split; [exact Hrun|lia].
Qed.

Lemma min_loop_closed (cnt : nat) :
  sign = 1 ->
  forall a n, 1 <= a -> k + 1 - a = Z.of_nat cnt ->
  exists n',
    min_loop child s N (py_range a (k + 1))
             (num_neg (scan_state (residue k N s) (a - 1)).1) n
    = Some (num_neg (scan_state (residue k N s) k).1, n') /\ n <= n'.
Proof.
  intros Hsign. induction cnt as [|cnt IH]; intros a n Ha Hcnt.
  - rewrite py_range_nil by lia. replace (a - 1) with k by lia.
    exists n. split; [reflexivity|lia].
  - rewrite py_range_cons by lia. cbn [min_loop].
    assert (exists n1,
      (if s + a <=? N then child (s + a) n else Some (Int 1, n))
      = Some (num_neg (Int (candidate k N s a)), n1) /\ n <= n1)
      as (n1 & -> & Hn1).
    { destruct (Z.leb_spec (s + a) N).
      - destruct (Hchild (s + a) n ltac:(lia)) as (n1 & -> & Hn1).
        exists n1. rewrite <- candidate_safe by lia.
        split; [cbn; repeat f_equal; lia|lia].
      - exists n. rewrite candidate_bust by lia. split; [reflexivity|lia]. }
    rewrite num_min_neg. unfold candidate.
    rewrite scan_state_max by (pose proof (residue_bounds k N Hk s); lia).
    destruct (IH (a + 1) n1 ltac:(lia) ltac:(lia)) as (n' & Hrun & Hn').
    replace (a + 1 - 1) with a in Hrun by lia.
    exists n'. split; [exact Hrun|lia].
Qed.
End loops.

(** With fuel for the remaining depth the search returns the closed form,
    seen from Player I, and counts at least the node itself. *)
Lemma minimax_tree_fuel_closed (fuel : nat) :
  forall s p n, s <= N -> (Z.to_nat (N - s) < fuel)%nat ->
  exists n',
    minimax_tree_fuel fuel s k N p n = Some (Int (tree_value k N p s), n') /\
    n < n'.
Proof.
  induction fuel as [|fuel IH]; intros s p n Hs Hfuel; [lia|].
  cbn [minimax_tree_fuel]. cbn zeta.
  destruct (Z.geb_spec s N) as [Hge|Hlt].
  - replace s with N by lia. unfold tree_value.
    rewrite closed_form_at_N by lia.
    destruct p; (eexists; split; [reflexivity|lia]).
  - destruct p.
    + destruct (max_loop_closed
        (fun s' n0 => minimax_tree_fuel fuel s' k N false n0) s Hlt (-1)
        ltac:(intros s' n0 Hs'; destruct (IH s' false n0 ltac:(lia) ltac:(lia))
                as (n' & Hr & Hn'); exists n'; split; [|lia];
              rewrite Hr; unfold tree_value; repeat f_equal; lia)
        (Z.to_nat k) eq_refl 1 (n + 1) ltac:(lia) ltac:(lia))
        as (n' & Hrun & Hn').
      change (scan_state (residue k N s) (1 - 1)).1 with NegInf in Hrun.
      rewrite Hrun, scan_state_last by lia.
      exists n'. split; [reflexivity|lia].
    + destruct (min_loop_closed
        (fun s' n0 => minimax_tree_fuel fuel s' k N true n0) s Hlt 1
        ltac:(intros s' n0 Hs'; destruct (IH s' true n0 ltac:(lia) ltac:(lia))
                as (n' & Hr & Hn'); exists n'; split; [|lia];
              rewrite Hr; unfold tree_value; repeat f_equal; lia)
        (Z.to_nat k) eq_refl 1 (n + 1) ltac:(lia) ltac:(lia))
        as (n' & Hrun & Hn').
      change (num_neg (scan_state (residue k N s) (1 - 1)).1) with PosInf in Hrun.
      rewrite Hrun, scan_state_last by lia.
      exists n'. split; [reflexivity|lia].
Qed.
End minimax_value.

(** ** Alpha-beta against plain minimax *)

Lemma num_eqb_eq (x y : num) : num_eqb x y = true <-> x = y.
Proof. destruct x, y; cbn; rewrite ?Z.eqb_eq; split; congruence. Qed.

Lemma game_num_cases (x : num) :
  game_num x = true -> x = NegInf \/ x = Int (-1) \/ x = Int 1 \/ x = PosInf.
Proof.
  destruct x as [|z|]; cbn; auto.
  destruct (Z.eqb_spec z (-1)), (Z.eqb_spec z 1); subst; cbn; auto.
  discriminate.
Qed.

Lemma for_game_elim (P : num -> bool) (x : num) :
  for_game P = true -> game_num x = true -> P x = true.
Proof.
  unfold for_game. cbn. rewrite !andb_true_iff. intros (H1 & H2 & H3 & H4 & _) Hx.
  destruct (game_num_cases x Hx) as [-> | [-> | [-> | ->]]]; assumption.
Qed.

Lemma game_num_max (x y : num) :
  game_num x = true -> game_num y = true -> game_num (num_max x y) = true.
Proof. unfold num_max. by destruct (num_gt y x). Qed.

Lemma game_num_min (x y : num) :
  game_num x = true -> game_num y = true -> game_num (num_min x y) = true.
Proof. unfold num_min. by destruct (num_lt y x). Qed.

(** Checking a property of seven game numbers on all of them. *)
Ltac game_check F a1 a2 a3 a4 a5 a6 a7 :=
  let H := fresh "Hall" in
  assert (H : for_game (fun x1 => for_game (fun x2 => for_game (fun x3 =>
              for_game (fun x4 => for_game (fun x5 => for_game (fun x6 =>
              for_game (fun x7 => F x1 x2 x3 x4 x5 x6 x7))))))) = true)
    by (vm_compute; reflexivity);
  apply (for_game_elim _ a1) in H; [|assumption]; cbv beta in H;
  apply (for_game_elim _ a2) in H; [|assumption]; cbv beta in H;
  apply (for_game_elim _ a3) in H; [|assumption]; cbv beta in H;
  apply (for_game_elim _ a4) in H; [|assumption]; cbv beta in H;
  apply (for_game_elim _ a5) in H; [|assumption]; cbv beta in H;
  apply (for_game_elim _ a6) in H; [|assumption]; cbv beta in H;
  apply (for_game_elim _ a7) in H; [|assumption]; cbv beta in H;
  exact H.

Lemma max_step (alpha0 beta b vb vi ri v : num) :
  game_num alpha0 = true -> game_num beta = true -> game_num b = true ->
  game_num vb = true -> game_num vi = true -> game_num ri = true ->
  game_num v = true ->
  max_step_ok alpha0 beta b vb vi ri v = true.
Proof. intros. game_check max_step_ok alpha0 beta b vb vi ri v. Qed.

Lemma min_step (alpha beta0 b vb vi ri v : num) :
  game_num alpha = true -> game_num beta0 = true -> game_num b = true ->
  game_num vb = true -> game_num vi = true -> game_num ri = true ->
  game_num v = true ->
  min_step_ok alpha beta0 b vb vi ri v = true.
Proof. intros. game_check min_step_ok alpha beta0 b vb vi ri v. Qed.

Lemma max_step_spec (alpha0 beta b vb vi ri : num) :
  game_num alpha0 = true -> game_num beta = true -> game_num b = true ->
  game_num vb = true -> game_num vi = true -> game_num ri = true ->
  max_inv alpha0 beta b vb = true ->
  ab_rel (num_max alpha0 b) beta vi ri = true ->
  num_max (num_max alpha0 b) (num_max b ri) = num_max alpha0 (num_max b ri) /\
  if num_ge (num_max alpha0 (num_max b ri)) beta
  then forall v, game_num v = true -> num_ge v (num_max vb vi) = true ->
                 ab_rel alpha0 beta v (num_max b ri) = true
  else max_inv alpha0 beta (num_max b ri) (num_max vb vi) = true.
Proof.
  intros Ha Hb Hb' Hvb Hvi Hri Hinv Hrel.
  assert (Hstep : forall v, game_num v = true ->
            num_max (num_max alpha0 b) (num_max b ri) = num_max alpha0 (num_max b ri) /\
            if num_ge (num_max alpha0 (num_max b ri)) beta
            then implb (num_ge v (num_max vb vi))
                       (ab_rel alpha0 beta v (num_max b ri)) = true
            else max_inv alpha0 beta (num_max b ri) (num_max vb vi) = true).
  { intros v Hv. pose proof (max_step alpha0 beta b vb vi ri v Ha Hb Hb' Hvb Hvi Hri Hv) as H.
    unfold max_step_ok in H. rewrite Hinv, Hrel in H. cbn [andb implb] in H.
    cbv zeta in H. apply andb_true_iff in H as [Heq H].
    apply num_eqb_eq in Heq. rewrite Heq in H. split; [exact Heq|].
    by destruct (num_ge _ _). }
  split; [exact (proj1 (Hstep NegInf eq_refl))|].
  destruct (num_ge (num_max alpha0 (num_max b ri)) beta) eqn:Ecut.
  - intros v Hv Hge. destruct (Hstep v Hv) as [_ H]. rewrite Hge in H. exact H.
  - exact (proj2 (Hstep NegInf eq_refl)).
Qed.

Lemma min_step_spec (alpha beta0 b vb vi ri : num) :
  game_num alpha = true -> game_num beta0 = true -> game_num b = true ->
  game_num vb = true -> game_num vi = true -> game_num ri = true ->
  min_inv alpha beta0 b vb = true ->
  ab_rel alpha (num_min beta0 b) vi ri = true ->
  num_min (num_min beta0 b) (num_min b ri) = num_min beta0 (num_min b ri) /\
  if num_ge alpha (num_min beta0 (num_min b ri))
  then forall v, game_num v = true -> num_ge (num_min vb vi) v = true ->
                 ab_rel alpha beta0 v (num_min b ri) = true
  else min_inv alpha beta0 (num_min b ri) (num_min vb vi) = true.
Proof.
  intros Ha Hb Hb' Hvb Hvi Hri Hinv Hrel.
  assert (Hstep : forall v, game_num v = true ->
            num_min (num_min beta0 b) (num_min b ri) = num_min beta0 (num_min b ri) /\
            if num_ge alpha (num_min beta0 (num_min b ri))
            then implb (num_ge (num_min vb vi) v)
                       (ab_rel alpha beta0 v (num_min b ri)) = true
            else min_inv alpha beta0 (num_min b ri) (num_min vb vi) = true).
  { intros v Hv. pose proof (min_step alpha beta0 b vb vi ri v Ha Hb Hb' Hvb Hvi Hri Hv) as H.
    unfold min_step_ok in H. rewrite Hinv, Hrel in H. cbn [andb implb] in H.
    cbv zeta in H. apply andb_true_iff in H as [Heq H].
    apply num_eqb_eq in Heq. rewrite Heq in H. split; [exact Heq|].
    by destruct (num_ge _ _). }
  split; [exact (proj1 (Hstep NegInf eq_refl))|].
  destruct (num_ge alpha (num_min beta0 (num_min b ri))) eqn:Ecut.
  - intros v Hv Hge. destruct (Hstep v Hv) as [_ H]. rewrite Hge in H. exact H.
  - exact (proj2 (Hstep NegInf eq_refl)).
Qed.

(** A loop that ends without a cutoff returns a related value. *)
Lemma max_inv_rel (alpha0 beta b vb : num) :
  max_inv alpha0 beta b vb = true -> ab_rel alpha0 beta vb b = true.
Proof. unfold max_inv, ab_rel. num_cases. Qed.

Lemma min_inv_rel (alpha beta0 b vb : num) :
  min_inv alpha beta0 b vb = true -> ab_rel alpha beta0 vb b = true.
Proof. unfold min_inv, ab_rel. num_cases. Qed.

Lemma ab_rel_refl (alpha beta v : num) : ab_rel alpha beta v v = true.
Proof. unfold ab_rel. num_cases. Qed.

Lemma max_inv_init (alpha beta : num) :
  num_lt alpha beta = true -> max_inv alpha beta NegInf NegInf = true.
Proof. unfold max_inv. num_cases. Qed.

Lemma min_inv_init (alpha beta : num) :
  num_lt alpha beta = true -> min_inv alpha beta PosInf PosInf = true.
Proof. unfold min_inv. num_cases. Qed.

Lemma num_max_NegInf (x : num) : num_max x NegInf = x.
Proof. num_cases. Qed.

Lemma num_min_PosInf (x : num) : num_min x PosInf = x.
Proof. num_cases. Qed.

Lemma num_ge_max_l (v x y : num) :
  num_ge v (num_max x y) = true -> num_ge v x = true.
Proof. num_cases. Qed.

Lemma num_ge_min_l (v x y : num) :
  num_ge (num_min x y) v = true -> num_ge x v = true.
Proof. num_cases. Qed.

Lemma num_ge_refl (x : num) : num_ge x x = true.
Proof. num_cases. Qed.

Section simulation.
Variable cm : Z -> Z -> option (num * Z).
Variable ca : Z -> num -> num -> Z -> option (num * Z).
Variables s N : Z.

(** The plain child returns game numbers and counts nodes. *)
Hypothesis Hcm : forall s' n v n',
  cm s' n = Some (v, n') -> game_num v = true /\ n < n'.

(** The pruned child returns whenever the plain one does, a related
    value, for no more nodes. *)
Hypothesis Hca : forall s' a b n m v n',
  game_num a = true -> game_num b = true -> num_lt a b = true ->
  cm s' n = Some (v, n') ->
  exists r m', ca s' a b m = Some (r, m') /\ game_num r = true /\
               ab_rel a b v r = true /\ m < m' /\ m' - m <= n' - n.

Lemma max_loop_mono (moves : list Z) :
  forall vb n v n', game_num vb = true ->
  max_loop cm s N moves vb n = Some (v, n') ->
  game_num v = true /\ num_ge v vb = true /\ n <= n'.
Proof.
  induction moves as [|i rest IH]; intros vb n v n' Hvb Hrun; cbn in Hrun.
  - injection Hrun as <- <-. split; [done|]. split; [apply num_ge_refl|lia].
  - destruct (s + i <=? N).
    + destruct (cm (s + i) n) as [[vi n1]|] eqn:Ecm; [|discriminate].
      destruct (Hcm _ _ _ _ Ecm) as [Hvi Hn1].
      destruct (IH _ _ _ _ (game_num_max _ _ Hvb Hvi) Hrun) as (Hv & Hge & Hn).
      split; [done|]. split; [by eapply num_ge_max_l|lia].
    + destruct (IH _ _ _ _ (game_num_max vb (Int (-1)) Hvb eq_refl) Hrun)
        as (Hv & Hge & Hn).
      split; [done|]. split; [by eapply num_ge_max_l|lia].
Qed.

Lemma min_loop_mono (moves : list Z) :
  forall vb n v n', game_num vb = true ->
  min_loop cm s N moves vb n = Some (v, n') ->
  game_num v = true /\ num_ge vb v = true /\ n <= n'.
Proof.
  induction moves as [|i rest IH]; intros vb n v n' Hvb Hrun; cbn in Hrun.
  - injection Hrun as <- <-. split; [done|]. split; [apply num_ge_refl|lia].
  - destruct (s + i <=? N).
    + destruct (cm (s + i) n) as [[vi n1]|] eqn:Ecm; [|discriminate].
      destruct (Hcm _ _ _ _ Ecm) as [Hvi Hn1].
      destruct (IH _ _ _ _ (game_num_min _ _ Hvb Hvi) Hrun) as (Hv & Hge & Hn).
      split; [done|]. split; [by eapply num_ge_min_l|lia].
    + destruct (IH _ _ _ _ (game_num_min vb (Int 1) Hvb eq_refl) Hrun)
        as (Hv & Hge & Hn).
      split; [done|]. split; [by eapply num_ge_min_l|lia].
Qed.

(** One move of both searches side by side; [bust] is the value of a
    busting move at this kind of node. *)
Lemma child_sim (bust : num) (i : Z) (a b : num) (n m : Z) (vi : num) (n1 : Z) :
  game_num bust = true ->
  game_num a = true -> game_num b = true -> num_lt a b = true ->
  (if s + i <=? N then cm (s + i) n else Some (bust, n)) = Some (vi, n1) ->
  exists ri m1,
    (if s + i >? N then Some (bust, m) else ca (s + i) a b m) = Some (ri, m1) /\
    game_num vi = true /\ game_num ri = true /\ ab_rel a b vi ri = true /\
    n <= n1 /\ m <= m1 /\ m1 - m <= n1 - n.
Proof.
  intros Hbust Ha Hb Hab Hrun.
  destruct (Z.leb_spec (s + i) N), (Z.gtb_spec (s + i) N); try lia.
  - destruct (Hcm _ _ _ _ Hrun) as [Hvi Hn1].
    destruct (Hca _ a b n m _ _ Ha Hb Hab Hrun) as (ri & m1 & -> & Hri & Hrel & Hm & Hle).
    exists ri, m1. repeat split; auto; lia.
  - injection Hrun as <- <-. exists bust, m.
    repeat split; auto using ab_rel_refl; lia.
Qed.

Lemma ab_max_loop_sim (moves : list Z) :
  forall vb b alpha0 beta n m v n',
  game_num vb = true -> game_num b = true ->
  game_num alpha0 = true -> game_num beta = true ->
  max_inv alpha0 beta b vb = true ->
  max_loop cm s N moves vb n = Some (v, n') ->
  exists r m',
    ab_max_loop ca s N moves b (num_max alpha0 b) beta m = Some (r, m') /\
    game_num r = true /\ ab_rel alpha0 beta v r = true /\
    m <= m' /\ m' - m <= n' - n.
Proof.
  induction moves as [|i rest IH];
    intros vb b alpha0 beta n m v n' Hvb Hb Ha0 Hbeta Hinv Hrun; cbn in Hrun.
  - injection Hrun as <- <-. exists b, m. cbn.
    repeat split; auto using max_inv_rel; lia.
  - destruct (if s + i <=? N then cm (s + i) n else Some (Int (-1), n))
      as [[vi n1]|] eqn:Echild; [|discriminate].
    assert (Hwin : num_lt (num_max alpha0 b) beta = true).
    { unfold max_inv in Hinv. by repeat (apply andb_true_iff in Hinv as [Hinv _]). }
    destruct (child_sim (Int (-1)) i (num_max alpha0 b) beta n m vi n1 eq_refl
                (game_num_max _ _ Ha0 Hb) Hbeta Hwin Echild)
      as (ri & m1 & Hab & Hvi & Hri & Hrel & Hn1 & Hm1 & Hle).
    cbn [ab_max_loop]. rewrite Hab. cbv zeta.
    destruct (max_step_spec alpha0 beta b vb vi ri Ha0 Hbeta Hb Hvb Hvi Hri Hinv Hrel)
      as [-> Hstep].
    destruct (max_loop_mono rest _ _ _ _ (game_num_max _ _ Hvb Hvi) Hrun)
      as (Hv & Hge & Hn').
    destruct (num_ge (num_max alpha0 (num_max b ri)) beta).
    + exists (num_max b ri), m1.
      repeat split; auto using game_num_max; lia.
    + destruct (IH _ _ _ _ _ m1 _ _ (game_num_max _ _ Hvb Hvi)
                  (game_num_max _ _ Hb Hri) Ha0 Hbeta Hstep Hrun)
        as (r & m' & -> & Hr & Hrel' & Hm' & Hle').
      exists r, m'. repeat split; auto; lia.
Qed.

Lemma ab_min_loop_sim (moves : list Z) :
  forall vb b alpha beta0 n m v n',
  game_num vb = true -> game_num b = true ->
  game_num alpha = true -> game_num beta0 = true ->
  min_inv alpha beta0 b vb = true ->
  min_loop cm s N moves vb n = Some (v, n') ->
  exists r m',
    ab_min_loop ca s N moves b alpha (num_min beta0 b) m = Some (r, m') /\
    game_num r = true /\ ab_rel alpha beta0 v r = true /\
    m <= m' /\ m' - m <= n' - n.
Proof.
  induction moves as [|i rest IH];
    intros vb b alpha beta0 n m v n' Hvb Hb Ha Hbeta0 Hinv Hrun; cbn in Hrun.
  - injection Hrun as <- <-. exists b, m. cbn.
    repeat split; auto using min_inv_rel; lia.
  - destruct (if s + i <=? N then cm (s + i) n else Some (Int 1, n))
      as [[vi n1]|] eqn:Echild; [|discriminate].
    assert (Hwin : num_lt alpha (num_min beta0 b) = true).
    { unfold min_inv in Hinv. by repeat (apply andb_true_iff in Hinv as [Hinv _]). }
    destruct (child_sim (Int 1) i alpha (num_min beta0 b) n m vi n1 eq_refl
                Ha (game_num_min _ _ Hbeta0 Hb) Hwin Echild)
      as (ri & m1 & Hab & Hvi & Hri & Hrel & Hn1 & Hm1 & Hle).
    cbn [ab_min_loop]. rewrite Hab. cbv zeta.
    destruct (min_step_spec alpha beta0 b vb vi ri Ha Hbeta0 Hb Hvb Hvi Hri Hinv Hrel)
      as [-> Hstep].
    destruct (min_loop_mono rest _ _ _ _ (game_num_min _ _ Hvb Hvi) Hrun)
      as (Hv & Hge & Hn').
    destruct (num_ge alpha (num_min beta0 (num_min b ri))).
    + exists (num_min b ri), m1.
      repeat split; auto using game_num_min; lia.
    + destruct (IH _ _ _ _ _ m1 _ _ (game_num_min _ _ Hvb Hvi)
                  (game_num_min _ _ Hb Hri) Ha Hbeta0 Hstep Hrun)
        as (r & m' & -> & Hr & Hrel' & Hm' & Hle').
      exists r, m'. repeat split; auto; lia.
Qed.
(** The first iteration of both loops of a MAX node, side by side. *)
Lemma ab_max_loop_cons (i : Z) (rest : list Z) :
  forall vb b alpha0 beta n m v n',
  game_num vb = true -> game_num b = true ->
  game_num alpha0 = true -> game_num beta = true ->
  max_inv alpha0 beta b vb = true ->
  max_loop cm s N (i :: rest) vb n = Some (v, n') ->
  exists vi n1 ri m1,
    (if s + i <=? N then cm (s + i) n else Some (Int (-1), n)) = Some (vi, n1) /\
    (if s + i >? N then Some (Int (-1), m)
     else ca (s + i) (num_max alpha0 b) beta m) = Some (ri, m1) /\
    game_num vi = true /\ game_num ri = true /\
    ab_rel (num_max alpha0 b) beta vi ri = true /\
    n <= n1 /\ m <= m1 /\ m1 - m <= n1 - n /\
    max_loop cm s N rest (num_max vb vi) n1 = Some (v, n') /\
    ab_max_loop ca s N (i :: rest) b (num_max alpha0 b) beta m
    = (if num_ge (num_max alpha0 (num_max b ri)) beta
       then Some (num_max b ri, m1)
       else ab_max_loop ca s N rest (num_max b ri)
                        (num_max alpha0 (num_max b ri)) beta m1) /\
    (num_ge (num_max alpha0 (num_max b ri)) beta = false ->
     max_inv alpha0 beta (num_max b ri) (num_max vb vi) = true).
Proof.
  intros vb b alpha0 beta n m v n' Hvb Hb Ha0 Hbeta Hinv Hrun. cbn in Hrun.
  destruct (if s + i <=? N then cm (s + i) n else Some (Int (-1), n))
    as [[vi n1]|] eqn:Echild; [|discriminate].
  assert (Hwin : num_lt (num_max alpha0 b) beta = true).
  { unfold max_inv in Hinv. by repeat (apply andb_true_iff in Hinv as [Hinv _]). }
  destruct (child_sim (Int (-1)) i (num_max alpha0 b) beta n m vi n1 eq_refl
              (game_num_max _ _ Ha0 Hb) Hbeta Hwin Echild)
    as (ri & m1 & Hab & Hvi & Hri & Hrel & Hn1 & Hm1 & Hle).
  exists vi, n1, ri, m1.
  destruct (max_step_spec alpha0 beta b vb vi ri Ha0 Hbeta Hb Hvb Hvi Hri Hinv Hrel)
    as [Heq Hstep].
  repeat split; auto.
  - cbn [ab_max_loop]. rewrite Hab. cbv zeta. by rewrite Heq.
  - intros Hcut. by rewrite Hcut in Hstep.
Qed.

Lemma ab_min_loop_cons (i : Z) (rest : list Z) :
  forall vb b alpha beta0 n m v n',
  game_num vb = true -> game_num b = true ->
  game_num alpha = true -> game_num beta0 = true ->
  min_inv alpha beta0 b vb = true ->
  min_loop cm s N (i :: rest) vb n = Some (v, n') ->
  exists vi n1 ri m1,
    (if s + i <=? N then cm (s + i) n else Some (Int 1, n)) = Some (vi, n1) /\
    (if s + i >? N then Some (Int 1, m)
     else ca (s + i) alpha (num_min beta0 b) m) = Some (ri, m1) /\
    game_num vi = true /\ game_num ri = true /\
    ab_rel alpha (num_min beta0 b) vi ri = true /\
    n <= n1 /\ m <= m1 /\ m1 - m <= n1 - n /\
    min_loop cm s N rest (num_min vb vi) n1 = Some (v, n') /\
    ab_min_loop ca s N (i :: rest) b alpha (num_min beta0 b) m
    = (if num_ge alpha (num_min beta0 (num_min b ri))
       then Some (num_min b ri, m1)
       else ab_min_loop ca s N rest (num_min b ri) alpha
                        (num_min beta0 (num_min b ri)) m1) /\
    (num_ge alpha (num_min beta0 (num_min b ri)) = false ->
     min_inv alpha beta0 (num_min b ri) (num_min vb vi) = true).
Proof.
  intros vb b alpha beta0 n m v n' Hvb Hb Ha Hbeta0 Hinv Hrun. cbn in Hrun.
  destruct (if s + i <=? N then cm (s + i) n else Some (Int 1, n))
    as [[vi n1]|] eqn:Echild; [|discriminate].
  assert (Hwin : num_lt alpha (num_min beta0 b) = true).
  { unfold min_inv in Hinv. by repeat (apply andb_true_iff in Hinv as [Hinv _]). }
  destruct (child_sim (Int 1) i alpha (num_min beta0 b) n m vi n1 eq_refl
              Ha (game_num_min _ _ Hbeta0 Hb) Hwin Echild)
    as (ri & m1 & Hab & Hvi & Hri & Hrel & Hn1 & Hm1 & Hle).
  exists vi, n1, ri, m1.
  destruct (min_step_spec alpha beta0 b vb vi ri Ha Hbeta0 Hb Hvb Hvi Hri Hinv Hrel)
    as [Heq Hstep].
  repeat split; auto.
  - cbn [ab_min_loop]. rewrite Hab. cbv zeta. by rewrite Heq.
  - intros Hcut. by rewrite Hcut in Hstep.
Qed.

(** When the pruned search of the first child visits strictly fewer nodes
    than the plain one, so does the loop. *)
Lemma ab_max_loop_strict (i : Z) (rest : list Z) :
  forall vb b alpha0 beta n m v n',
  game_num vb = true -> game_num b = true ->
  game_num alpha0 = true -> game_num beta = true ->
  max_inv alpha0 beta b vb = true ->
  s + i <= N ->
  (forall v1 n1 r1 m1, cm (s + i) n = Some (v1, n1) ->
     ca (s + i) (num_max alpha0 b) beta m = Some (r1, m1) -> m1 - m < n1 - n) ->
  max_loop cm s N (i :: rest) vb n = Some (v, n') ->
  exists r m',
    ab_max_loop ca s N (i :: rest) b (num_max alpha0 b) beta m = Some (r, m') /\
    m' - m < n' - n.
Proof.
  intros vb b alpha0 beta n m v n' Hvb Hb Ha0 Hbeta Hinv Hi Hstrict Hrun.
  destruct (ab_max_loop_cons i rest vb b alpha0 beta n m v n'
              Hvb Hb Ha0 Hbeta Hinv Hrun)
    as (vi & n1 & ri & m1 & Hc & Ha & Hvi & Hri & Hrel & Hn1 & Hm1 & Hle
        & Hrest & -> & Hkeep).
  destruct (Z.leb_spec (s + i) N), (Z.gtb_spec (s + i) N); try lia.
  specialize (Hstrict _ _ _ _ Hc Ha).
  destruct (max_loop_mono rest _ _ _ _ (game_num_max _ _ Hvb Hvi) Hrest)
    as (_ & _ & Hn').
  destruct (num_ge (num_max alpha0 (num_max b ri)) beta).
  - eexists _, _. split; [reflexivity|lia].
  - destruct (ab_max_loop_sim rest _ _ _ _ _ m1 _ _ (game_num_max _ _ Hvb Hvi)
                (game_num_max _ _ Hb Hri) Ha0 Hbeta (Hkeep eq_refl) Hrest)
      as (r & m' & -> & _ & _ & _ & Hle').
    eexists _, _. split; [reflexivity|lia].
Qed.

Lemma ab_min_loop_strict (i : Z) (rest : list Z) :
  forall vb b alpha beta0 n m v n',
  game_num vb = true -> game_num b = true ->
  game_num alpha = true -> game_num beta0 = true ->
  min_inv alpha beta0 b vb = true ->
  s + i <= N ->
  (forall v1 n1 r1 m1, cm (s + i) n = Some (v1, n1) ->
     ca (s + i) alpha (num_min beta0 b) m = Some (r1, m1) -> m1 - m < n1 - n) ->
  min_loop cm s N (i :: rest) vb n = Some (v, n') ->
  exists r m',
    ab_min_loop ca s N (i :: rest) b alpha (num_min beta0 b) m = Some (r, m') /\
    m' - m < n' - n.
Proof.
  intros vb b alpha beta0 n m v n' Hvb Hb Ha0 Hbeta Hinv Hi Hstrict Hrun.
  destruct (ab_min_loop_cons i rest vb b alpha beta0 n m v n'
              Hvb Hb Ha0 Hbeta Hinv Hrun)
    as (vi & n1 & ri & m1 & Hc & Ha & Hvi & Hri & Hrel & Hn1 & Hm1 & Hle
        & Hrest & -> & Hkeep).
  destruct (Z.leb_spec (s + i) N), (Z.gtb_spec (s + i) N); try lia.
  specialize (Hstrict _ _ _ _ Hc Ha).
  destruct (min_loop_mono rest _ _ _ _ (game_num_min _ _ Hvb Hvi) Hrest)
    as (_ & _ & Hn').
  destruct (num_ge alpha (num_min beta0 (num_min b ri))).
  - eexists _, _. split; [reflexivity|lia].
  - destruct (ab_min_loop_sim rest _ _ _ _ _ m1 _ _ (game_num_min _ _ Hvb Hvi)
                (game_num_min _ _ Hb Hri) Ha0 Hbeta (Hkeep eq_refl) Hrest)
      as (r & m' & -> & _ & _ & _ & Hle').
    eexists _, _. split; [reflexivity|lia].
Qed.
End simulation.

(** Whatever plain minimax returns is a game number, and the node itself
    is counted. *)
Lemma minimax_tree_fuel_game (k N : Z) (fuel : nat) :
  forall s p n v n',
  minimax_tree_fuel fuel s k N p n = Some (v, n') ->
  game_num v = true /\ n < n'.
Proof.
  induction fuel as [|fuel IH]; intros s p n v n' Hrun; [discriminate|].
  cbn [minimax_tree_fuel] in Hrun. cbv zeta in Hrun.
  destruct (s >=? N).
  - destruct p; injection Hrun as <- <-; split; (reflexivity || lia).
  - destruct p.
    + apply max_loop_mono in Hrun as (Hv & _ & Hn); [split; [done|lia]| |done].
      intros s' n0 v0 n0'. apply IH.
    + apply min_loop_mono in Hrun as (Hv & _ & Hn); [split; [done|lia]| |done].
      intros s' n0 v0 n0'. apply IH.
Qed.

(** Alpha-beta with a non-empty window returns whenever plain minimax does,
    given the same fuel: a value related to the minimax value by [ab_rel],
    after visiting at least one and no more nodes. *)
Lemma ab_simulates_minimax (k N : Z) (fuel : nat) :
  forall s p alpha beta n m v n',
  game_num alpha = true -> game_num beta = true -> num_lt alpha beta = true ->
  minimax_tree_fuel fuel s k N p n = Some (v, n') ->
  exists r m',
    minimax_ab_tree_fuel fuel s k N p alpha beta m = Some (r, m') /\
    game_num r = true /\ ab_rel alpha beta v r = true /\
    m < m' /\ m' - m <= n' - n.
Proof.
  induction fuel as [|fuel IH]; intros s p alpha beta n m v n' Ha Hb Hab Hrun;
    [discriminate|].
  cbn [minimax_tree_fuel] in Hrun. cbv zeta in Hrun.
  cbn [minimax_ab_tree_fuel]. cbv zeta.
  destruct (s >=? N).
  - destruct p; injection Hrun as <- <-; eexists _, _;
      (split; [reflexivity|]); repeat split; auto using ab_rel_refl; lia.
  - pose proof (fun s' p' n0 v0 n0' =>
                  minimax_tree_fuel_game k N fuel s' p' n0 v0 n0') as Hcm.
    destruct p.
    + destruct (ab_max_loop_sim _
                  (fun s' a b m0 => minimax_ab_tree_fuel fuel s' k N false a b m0)
                  s N (fun s' => Hcm s' false)
                  (fun s' a b n0 m0 v0 n0' => IH s' false a b n0 m0 v0 n0')
                  _ NegInf NegInf alpha beta (n + 1) (m + 1) v n'
                  eq_refl eq_refl Ha Hb (max_inv_init _ _ Hab) Hrun)
        as (r & m' & Hrun' & Hr & Hrel & Hm & Hle).
      rewrite num_max_NegInf in Hrun'. exists r, m'.
      repeat split; auto; lia.
    + destruct (ab_min_loop_sim _
                  (fun s' a b m0 => minimax_ab_tree_fuel fuel s' k N true a b m0)
                  s N (fun s' => Hcm s' true)
                  (fun s' a b n0 m0 v0 n0' => IH s' true a b n0 m0 v0 n0')
                  _ PosInf PosInf alpha beta (n + 1) (m + 1) v n'
                  eq_refl eq_refl Ha Hb (min_inv_init _ _ Hab) Hrun)
        as (r & m' & Hrun' & Hr & Hrel & Hm & Hle).
      rewrite num_min_PosInf in Hrun'. exists r, m'.
      repeat split; auto; lia.
Qed.

(** With the full window the related value is the minimax value. *)
Lemma ab_rel_full_window (v r : num) :
  game_num v = true -> v <> NegInf -> v <> PosInf ->
  ab_rel NegInf PosInf v r = true -> r = v.
Proof.
  intros Hv Hn Hp Hrel. apply num_eqb_eq.
  unfold ab_rel in Hrel. destruct v, r; cbn in *; congruence.
Qed.

(** ** Where alpha-beta prunes *)

Lemma num_max_NegInf_l (x : num) : num_max NegInf x = x.
Proof. by destruct x. Qed.

Lemma num_min_PosInf_l (x : num) : num_min PosInf x = x.
Proof. by destruct x. Qed.

(** A finite value below the window [(1, inf)] is answered by at most 1,
    and one above [(-inf, -1)] by at least -1. *)
Lemma ab_rel_low (z : Z) (r : num) :
  game_num r = true -> ab_rel (Int 1) PosInf (Int z) r = true ->
  num_ge (Int 1) r = true.
Proof.
  intros Hr Hrel.
  destruct (game_num_cases r Hr) as [-> | [-> | [-> | ->]]]; cbn in *; congruence.
Qed.

Lemma ab_rel_high (z : Z) (r : num) :
  game_num r = true -> ab_rel NegInf (Int (-1)) (Int z) r = true ->
  num_ge r (Int (-1)) = true.
Proof.
  intros Hr Hrel.
  destruct (game_num_cases r Hr) as [-> | [-> | [-> | ->]]]; cbn in *; congruence.
Qed.

Section pruning.
Variables k N : Z.
Hypothesis Hk : 2 <= k.

(** A MIN node entered with [alpha = 1] is cut after its first child, and
    its second child is never visited. *)
Lemma cut_below_min (fuel : nat) (t : Z) :
  t + 2 <= N -> (Z.to_nat (N - t) < fuel)%nat ->
  forall n m v n' r m',
  minimax_tree_fuel fuel t k N false n = Some (v, n') ->
  minimax_ab_tree_fuel fuel t k N false (Int 1) PosInf m = Some (r, m') ->
  m' - m < n' - n.
Proof.
  intros Ht Hfuel n m v n' r m' Hmm Hab.
  destruct fuel as [|f]; [lia|].
  cbn [minimax_tree_fuel] in Hmm. cbn [minimax_ab_tree_fuel] in Hab.
  cbv zeta in Hmm, Hab.
  destruct (Z.geb_spec t N); [lia|].
  rewrite (py_range_cons 1), (py_range_cons (1 + 1)) in Hmm, Hab by lia.
  pose proof (fun s' => minimax_tree_fuel_game k N f s' true) as Hcm.
  pose proof (fun s' a b n0 m0 v0 n0' =>
                ab_simulates_minimax k N f s' true a b n0 m0 v0 n0') as Hca.
  destruct (ab_min_loop_cons _ _ t N Hcm Hca 1 _ PosInf PosInf (Int 1) PosInf
              (n + 1) (m + 1) v n' eq_refl eq_refl eq_refl eq_refl eq_refl Hmm)
    as (vi & n1 & ri & m1 & Hc & _ & Hvi & Hri & Hrel & Hn1 & Hm1 & Hle
        & Hrest & Heq & _).
  rewrite !num_min_PosInf_l in *.
  destruct (Z.leb_spec (t + 1) N); [|lia].
  destruct (minimax_tree_fuel_closed k N ltac:(lia) f (t + 1) true (n + 1)
              ltac:(lia) ltac:(lia)) as (n1' & Hcl & _).
  rewrite Hcl in Hc. injection Hc as <- <-.
  rewrite (ab_rel_low _ _ Hri Hrel) in Heq.
  rewrite Heq in Hab. injection Hab as <- <-.
  cbn [min_loop] in Hrest.
  destruct (Z.leb_spec (t + (1 + 1)) N); [|lia].
  destruct (minimax_tree_fuel f (t + (1 + 1)) k N true n1')
    as [[v4 n4]|] eqn:E4; [|discriminate].
  destruct (Hcm _ _ _ _ E4) as [Hv4 Hn4].
  apply min_loop_mono in Hrest as (_ & _ & Hn'); [lia|exact Hcm|].
  by apply game_num_min.
Qed.

(** A MAX node entered with [beta = -1] is cut after its first child. *)
Lemma cut_below_max (fuel : nat) (t : Z) :
  t + 2 <= N -> (Z.to_nat (N - t) < fuel)%nat ->
  forall n m v n' r m',
  minimax_tree_fuel fuel t k N true n = Some (v, n') ->
  minimax_ab_tree_fuel fuel t k N true NegInf (Int (-1)) m = Some (r, m') ->
  m' - m < n' - n.
Proof.
  intros Ht Hfuel n m v n' r m' Hmm Hab.
  destruct fuel as [|f]; [lia|].
  cbn [minimax_tree_fuel] in Hmm. cbn [minimax_ab_tree_fuel] in Hab.
  cbv zeta in Hmm, Hab.
  destruct (Z.geb_spec t N); [lia|].
  rewrite (py_range_cons 1), (py_range_cons (1 + 1)) in Hmm, Hab by lia.
  pose proof (fun s' => minimax_tree_fuel_game k N f s' false) as Hcm.
  pose proof (fun s' a b n0 m0 v0 n0' =>
                ab_simulates_minimax k N f s' false a b n0 m0 v0 n0') as Hca.
  destruct (ab_max_loop_cons _ _ t N Hcm Hca 1 _ NegInf NegInf NegInf (Int (-1))
              (n + 1) (m + 1) v n' eq_refl eq_refl eq_refl eq_refl eq_refl Hmm)
    as (vi & n1 & ri & m1 & Hc & _ & Hvi & Hri & Hrel & Hn1 & Hm1 & Hle
        & Hrest & Heq & _).
  rewrite !num_max_NegInf_l in *.
  destruct (Z.leb_spec (t + 1) N); [|lia].
  destruct (minimax_tree_fuel_closed k N ltac:(lia) f (t + 1) false (n + 1)
              ltac:(lia) ltac:(lia)) as (n1' & Hcl & _).
  rewrite Hcl in Hc. injection Hc as <- <-.
  rewrite (ab_rel_high _ _ Hri Hrel) in Heq.
  rewrite Heq in Hab. injection Hab as <- <-.
  cbn [max_loop] in Hrest.
  destruct (Z.leb_spec (t + (1 + 1)) N); [|lia].
  destruct (minimax_tree_fuel f (t + (1 + 1)) k N false n1')
    as [[v4 n4]|] eqn:E4; [|discriminate].
  destruct (Hcm _ _ _ _ E4) as [Hv4 Hn4].
  apply max_loop_mono in Hrest as (_ & _ & Hn'); [lia|exact Hcm|].
  by apply game_num_max.
Qed.
Lemma closed_form_one_round (s : Z) :
  s + k + 1 = N -> closed_form s k N = -1.
Proof.
  intros Hs. unfold closed_form. replace (N - s) with (k + 1) by lia.
  rewrite Z.mod_same by lia. reflexivity.
Qed.

(** From every state with at least [k + 2] left to [N], the full-window
    alpha-beta search visits strictly fewer nodes than plain minimax. *)
Lemma ab_prunes (fuel : nat) :
  forall s p n m v n' r m',
  s + k + 2 <= N -> (Z.to_nat (N - s) < fuel)%nat ->
  minimax_tree_fuel fuel s k N p n = Some (v, n') ->
  minimax_ab_tree_fuel fuel s k N p NegInf PosInf m = Some (r, m') ->
  m' - m < n' - n.
Proof.
  induction fuel as [|f IH]; intros s p n m v n' r m' Hs Hfuel Hmm Hab; [lia|].
  cbn [minimax_tree_fuel] in Hmm. cbn [minimax_ab_tree_fuel] in Hab.
  cbv zeta in Hmm, Hab.
  destruct (Z.geb_spec s N); [lia|].
  rewrite (py_range_cons 1) in Hmm, Hab by lia.
  pose proof (fun p' s' => minimax_tree_fuel_game k N f s' p') as Hcm.
  pose proof (fun p' s' a b n0 m0 v0 n0' =>
                ab_simulates_minimax k N f s' p' a b n0 m0 v0 n0') as Hca.
  destruct (Z.le_gt_cases (s + 1 + k + 2) N) as [Hdeep|Hbase].
  - (* the first child already prunes *)
    destruct p.
    + destruct (ab_max_loop_strict _ _ s N (Hcm false) (Hca false) 1 _
                  NegInf NegInf NegInf PosInf (n + 1) (m + 1) v n'
                  eq_refl eq_refl eq_refl eq_refl eq_refl ltac:(lia)
                  ltac:(intros v1 n1 r1 m1 H1 H2;
                        exact (IH (s + 1) false _ _ _ _ _ _
                                 ltac:(lia) ltac:(lia) H1 H2))
                  Hmm) as (r0 & m0 & Hab0 & Hlt).
      rewrite num_max_NegInf_l in Hab0. rewrite Hab0 in Hab.
      injection Hab as <- <-. lia.
    + destruct (ab_min_loop_strict _ _ s N (Hcm true) (Hca true) 1 _
                  PosInf PosInf NegInf PosInf (n + 1) (m + 1) v n'
                  eq_refl eq_refl eq_refl eq_refl eq_refl ltac:(lia)
                  ltac:(intros v1 n1 r1 m1 H1 H2;
                        exact (IH (s + 1) true _ _ _ _ _ _
                                 ltac:(lia) ltac:(lia) H1 H2))
                  Hmm) as (r0 & m0 & Hab0 & Hlt).
      rewrite num_min_PosInf_l in Hab0. rewrite Hab0 in Hab.
      injection Hab as <- <-. lia.
  - (* the first child is a lost state for its mover; the second is cut *)
    rewrite (py_range_cons (1 + 1)) in Hmm, Hab by lia.
    destruct p.
    + destruct (ab_max_loop_cons _ _ s N (Hcm false) (Hca false) 1 _
                  NegInf NegInf NegInf PosInf (n + 1) (m + 1) v n'
                  eq_refl eq_refl eq_refl eq_refl eq_refl Hmm)
        as (vi & n1 & ri & m1 & Hc & _ & Hvi & Hri & Hrel & Hn1 & Hm1 & Hle
            & Hrest & Heq & _).
      destruct (Z.leb_spec (s + 1) N); [|lia].
      destruct (minimax_tree_fuel_closed k N ltac:(lia) f (s + 1) false (n + 1)
                  ltac:(lia) ltac:(lia)) as (n1' & Hcl & _).
      rewrite Hcl in Hc. injection Hc as <- <-.
      unfold tree_value in *. rewrite closed_form_one_round in * by lia.
      change (ab_rel NegInf PosInf (Int 1) ri = true) in Hrel.
      apply (ab_rel_full_window (Int 1) ri eq_refl) in Hrel; [subst ri|done..].
      destruct (ab_max_loop_strict _ _ s N (Hcm false) (Hca false) (1 + 1) _
                  (Int 1) (Int 1) NegInf PosInf n1' m1 v n'
                  eq_refl eq_refl eq_refl eq_refl eq_refl ltac:(lia)
                  ltac:(intros v1 n2 r1 m2 H1 H2;
                        exact (cut_below_min f (s + (1 + 1)) ltac:(lia) ltac:(lia)
                                 _ _ _ _ _ _ H1 H2))
                  Hrest) as (r0 & m0 & Hab0 & Hlt).
      change (num_max NegInf NegInf) with NegInf in Heq. rewrite Heq in Hab.
      assert (Some (r0, m0) = Some (r, m')) as [= <- <-]
        by (rewrite <- Hab0; exact Hab).
      lia.
    + destruct (ab_min_loop_cons _ _ s N (Hcm true) (Hca true) 1 _
                  PosInf PosInf NegInf PosInf (n + 1) (m + 1) v n'
                  eq_refl eq_refl eq_refl eq_refl eq_refl Hmm)
        as (vi & n1 & ri & m1 & Hc & _ & Hvi & Hri & Hrel & Hn1 & Hm1 & Hle
            & Hrest & Heq & _).
      destruct (Z.leb_spec (s + 1) N); [|lia].
      destruct (minimax_tree_fuel_closed k N ltac:(lia) f (s + 1) true (n + 1)
                  ltac:(lia) ltac:(lia)) as (n1' & Hcl & _).
      rewrite Hcl in Hc. injection Hc as <- <-.
      unfold tree_value in *. rewrite closed_form_one_round in * by lia.
      change (ab_rel NegInf PosInf (Int (-1)) ri = true) in Hrel.
      apply (ab_rel_full_window (Int (-1)) ri eq_refl) in Hrel; [subst ri|done..].
      destruct (ab_min_loop_strict _ _ s N (Hcm true) (Hca true) (1 + 1) _
                  (Int (-1)) (Int (-1)) NegInf PosInf n1' m1 v n'
                  eq_refl eq_refl eq_refl eq_refl eq_refl ltac:(lia)
                  ltac:(intros v1 n2 r1 m2 H1 H2;
                        exact (cut_below_max f (s + (1 + 1)) ltac:(lia) ltac:(lia)
                                 _ _ _ _ _ _ H1 H2))
                  Hrest) as (r0 & m0 & Hab0 & Hlt).
      change (num_min PosInf PosInf) with PosInf in Heq. rewrite Heq in Hab.
      assert (Some (r0, m0) = Some (r, m')) as [= <- <-]
        by (rewrite <- Hab0; exact Hab).
      lia.
Qed.
End pruning.

(** ** The simulated game *)

Lemma py_range_bounds (a b : Z) : Forall (fun j => a <= j < b) (py_range a b).
Proof.
  unfold py_range. apply Forall_forall. intros j Hj.
  apply list_elem_of_In, in_map_iff in Hj as (i & <- & Hi).
  apply in_seq in Hi. lia.
Qed.

Lemma play_loop_more_fuel (k N : Z) (V : list num) (policy : list (option Z))
    (p1 p2 : bool) (r : res outcome) (fuel : nat) :
  forall fuel' s is_p1 move_num log, (fuel <= fuel')%nat ->
  play_loop fuel k N V policy p1 p2 s is_p1 move_num log = Some r ->
  play_loop fuel' k N V policy p1 p2 s is_p1 move_num log = Some r.
Proof.
  induction fuel as [|f IH]; intros fuel' s is_p1 move_num log Hle Hrun;
    [discriminate|].
  destruct fuel' as [|f']; [lia|]. cbn [play_loop] in *. cbv zeta in *.
  destruct (if s <=? N then _ else _); [|done].
  destruct (s =? N); [done|].
  match goal with
  | |- match ?c with _ => _ end = _ => destruct c as [i|]; [|done]
  end.
  destruct (s + i >? N); [done|].
  destruct (py_getitem V (s + i)); [|done].
  apply IH; [lia|done].
Qed.

Section game.
Variables k N : Z.
Hypothesis Hk : 1 <= k.
Hypothesis HN : 0 <= N.
Variable V : list num.
Variable policy : list (option Z).
Hypothesis Hfilled : filled_from k N 0 V policy.

Lemma read_value (s : Z) :
  0 <= s <= N -> py_getitem V s = Ok (Int (closed_form s k N)).
Proof.
  intros Hs. apply py_getitem_lookup; [lia|].
  destruct Hfilled as (_ & _ & H). by apply H.
Qed.

Lemma read_policy (s : Z) :
  0 <= s < N -> py_getitem policy s = Ok (Some (policy_closed k N s)).
Proof.
  intros Hs. apply py_getitem_lookup; [lia|].
  destruct Hfilled as (_ & _ & H). destruct (H s ltac:(lia)) as [_ ->].
  unfold policy_entry. destruct (Z.eqb_spec s N); [lia|done].
Qed.

Lemma policy_closed_bounds (s : Z) : 1 <= policy_closed k N s <= k.
Proof.
  unfold policy_closed. pose proof (residue_bounds k N ltac:(lia) s).
  destruct (Z.eqb_spec (residue k N s) 0); lia.
Qed.

(** The suboptimal branch picks a move of the game. *)
Lemma worst_scan_bounds (s : Z) (moves : list Z) :
  0 <= s <= N ->
  forall worst_val i, Forall (fun j => 1 <= j < k + 1) moves -> 1 <= i <= k ->
  exists w i', worst_scan N V s moves worst_val i = Ok (w, i') /\ 1 <= i' <= k.
Proof.
  intros Hs. induction moves as [|j rest IH]; intros worst_val i Hall Hi.
  - exists worst_val, i. by split.
  - apply Forall_cons in Hall as [Hj Hrest]. cbn [worst_scan].
    assert ((if s + j <=? N then v ← py_getitem V (s + j); Ok (num_neg v)
             else Ok (Int (-1)))
            = Ok (Int (if s + j <=? N then - closed_form (s + j) k N else -1)))
      as ->.
    { destruct (Z.leb_spec (s + j) N); [|done].
      by rewrite read_value by lia. }
    cbn [mbind res_bind].
    match goal with
    | |- context [num_lt ?a worst_val] => destruct (num_lt a worst_val)
    end; apply IH; auto; lia.
Qed.

(** The move of either policy at a state below [N]. *)
Lemma move_choice (optimal : bool) (s : Z) :
  0 <= s < N ->
  exists i,
    (if optimal
     then m ← py_getitem policy s;
          match m with Some i => Ok i | None => Raise TypeError end
     else '(_, i) ← worst_scan N V s (py_range 1 (k + 1)) PosInf 1; Ok i)
    = Ok i /\ 1 <= i <= k.
Proof.
  intros Hs. destruct optimal.
  - exists (policy_closed k N s). rewrite read_policy by lia.
    split; [done|apply policy_closed_bounds].
  - destruct (worst_scan_bounds s (py_range 1 (k + 1)) ltac:(lia) PosInf 1
                (py_range_bounds _ _) ltac:(lia)) as (w & i & -> & Hi).
    by exists i.
Qed.

(** From any state up to [N], the loop returns within [N - s + 1] moves. *)
Lemma play_loop_terminates (p1 p2 : bool) (fuel : nat) :
  forall s is_p1 move_num log,
  0 <= s <= N -> (Z.to_nat (N - s) < fuel)%nat ->
  exists out lines,
    play_loop fuel k N V policy p1 p2 s is_p1 move_num log = Some (Ok out) /\
    out_log out = log ++ lines /\
    Z.of_nat (length lines) <= N - s + 1 /\
    game_over N move_num lines out.
Proof.
  induction fuel as [|f IH]; intros s is_p1 move_num log Hs Hfuel; [lia|].
  cbn [play_loop]. cbv zeta. rewrite read_value by lia.
  destruct (Z.leb_spec s N); [|lia]. cbn [mbind res_bind].
  destruct (Z.eqb_spec s N) as [->|Hne].
  - eexists _, [_]. split; [reflexivity|]. cbn.
    split; [reflexivity|]. split; [lia|]. split.
    + apply Forall_singleton. cbn. lia.
    + eexists. split; [reflexivity|]. cbn. by destruct is_p1; repeat split; lia.
  - destruct (move_choice ((is_p1 && p1) || (negb is_p1 && p2)) s ltac:(lia))
      as (i & -> & Hi).
    destruct (Z.gtb_spec (s + i) N) as [Hbust|Hsafe].
    + eexists _, [_]. split; [reflexivity|]. cbn.
      split; [reflexivity|]. split; [lia|]. split.
      * apply Forall_singleton. cbn. lia.
      * eexists. split; [reflexivity|]. cbn.
        by destruct is_p1; repeat split; lia.
    + rewrite read_value by lia.
      destruct (IH (s + i) (negb is_p1) (move_num + 1)
                  (log ++ [MoveLine move_num (mover is_p1) s
                             (Some (Int (closed_form s k N))) i (s + i)])
                  ltac:(lia) ltac:(lia))
        as (out & lines & -> & Hlog & Hlen & Hall & l & Hlast & Hl).
      eexists out, (_ :: lines). split; [reflexivity|].
      split; [by rewrite Hlog, <- app_assoc|].
      split; [cbn [length]; lia|]. split.
      * apply Forall_cons. split; [cbn; lia|done].
      * exists l. split.
        { destruct lines; [discriminate|]. by rewrite last_cons_cons. }
        cbn [length]. destruct Hl as (? & ? & ? & ?). repeat split; auto; lia.
Qed.
End game.

(** ** The check of the table against the formula *)

Lemma verify_loop_filled (k N : Z) (V : list num) (policy : list (option Z)) :
  1 <= k -> filled_from k N 0 V policy ->
  forall (n : nat) a, 0 <= a -> N + 1 - a = Z.of_nat n ->
  verify_loop k N V (py_range a (N + 1)) = Ok true.
Proof.
  intros Hk HF. induction n as [|n IH]; intros a Ha Hn.
  - by rewrite py_range_nil by lia.
  - rewrite py_range_cons by lia. cbn [verify_loop]. unfold py_mod.
    destruct (Z.eqb_spec (k + 1) 0); [lia|]. cbn [mbind res_bind]. cbv zeta.
    rewrite (read_value k N V policy HF a) by lia. cbn [mbind res_bind].
    unfold closed_form. cbn [num_eqb]. rewrite Z.eqb_refl. cbn [negb].
    apply IH; lia.
Qed.

(** ** Parameters outside the game *)

Lemma solve_negative_threshold (k N : Z) :
  N < 0 -> solve_addition_game k N = Raise IndexError.
Proof.
  intros HN. unfold solve_addition_game, py_setitem.
  rewrite !length_py_repeat. replace (Z.to_nat (N + 1)) with 0%nat by lia.
  change (Z.of_nat 0) with 0. by rewrite !py_index_empty.
Qed.

Lemma solve_loop_no_moves (k N : Z) (n : nat) :
  k < 1 ->
  forall t V policy, Z.of_nat n = t -> t <= N -> unsolved_from N t V policy ->
  exists V' policy',
    solve_loop k N (py_range_down (t - 1) (-1)) V policy = Ok (V', policy') /\
    unsolved_from N 0 V' policy'.
Proof.
  intros Hk. induction n as [|n IH]; intros t V policy Hn Ht HF.
  - rewrite py_range_down_nil by lia. exists V, policy. split; [reflexivity|].
    by replace 0 with t by lia.
  - rewrite py_range_down_cons by lia. cbn [solve_loop].
    destruct HF as (HlV & Hlp & HF).
    rewrite (py_range_nil 1 (k + 1)) by lia. cbn.
    rewrite !py_setitem_inrange by lia. cbn.
    apply IH; [lia|lia|].
    split; [|split]; [by rewrite length_insert..|].
    intros j Hj. destruct (Z.eq_dec j (t - 1)) as [->|Hne].
    + rewrite !list_lookup_insert_eq by lia.
      destruct (Z.eqb_spec (t - 1) N); [lia|]. done.
    + rewrite !list_lookup_insert_ne by lia. apply HF. lia.
Qed.

Lemma solve_no_moves (k N : Z) :
  k < 1 -> 0 <= N ->
  exists V policy,
    solve_addition_game k N = Ok (Solution V policy k N) /\
    unsolved_from N 0 V policy.
Proof.
  intros Hk HN. unfold solve_addition_game.
  rewrite !py_setitem_inrange by (rewrite length_py_repeat; lia). cbn.
  destruct (solve_loop_no_moves k N (Z.to_nat N) Hk N
              (<[Z.to_nat N := Int (-1)]> (py_repeat (Int 0) (N + 1)))
              (<[Z.to_nat N := None]> (py_repeat (Some 0) (N + 1)))
              ltac:(lia) ltac:(lia)) as (V & policy & Hrun & HF).
  { split; [|split]; [by rewrite length_insert, length_py_repeat..|].
    intros j Hj. replace j with N by lia.
    rewrite !list_lookup_insert_eq by (rewrite length_py_repeat; lia).
    by rewrite Z.eqb_refl. }
  rewrite Hrun. cbn. eauto.
Qed.

(** ** The simulated game, from the solver's tables *)

Lemma demo_game_play_more_fuel (k N : Z) (p1 p2 : bool) (r : res outcome)
    (fuel fuel' : nat) :
  (fuel <= fuel')%nat ->
  demo_game_play fuel k N p1 p2 = Some r ->
  demo_game_play fuel' k N p1 p2 = Some r.
Proof.
  unfold demo_game_play. intros Hle.
  destruct (solve_addition_game k N); [|done].
  by apply play_loop_more_fuel.
Qed.

(** * The claims of the specification *)

(** C1. For every [k >= 1], [N >= 0] and [0 <= s <= N], the solver returns a
    value table of length [N + 1] whose entry [V[s]] is [-1] when
    [(N - s) mod (k + 1) = 0] and [+1] otherwise, and the check of
    [verify_analytical_solution] against the formula answers [True]. *)
Theorem C1_value_table_is_closed_form (k N s : Z) :
  1 <= k -> 0 <= N -> 0 <= s <= N ->
  exists sol,
    solve_addition_game k N = Ok sol /\
    Z.of_nat (length (sol_V sol)) = N + 1 /\
    py_getitem (sol_V sol) s
    = Ok (Int (if (N - s) mod (k + 1) =? 0 then -1 else 1)) /\
    verify_analytical_solution k N = Ok true.
Proof.
  intros Hk HN Hs.
  destruct (solve_addition_game_closed k N Hk HN) as (V & policy & Hsol & HF).
  exists (Solution V policy k N). split; [exact Hsol|]. cbn [sol_V].
  split; [destruct HF as (-> & _); lia|].
  split; [exact (read_value k N V policy HF s Hs)|].
  unfold verify_analytical_solution. rewrite Hsol. cbn [mbind res_bind sol_V].
  apply (verify_loop_filled k N V policy Hk HF (Z.to_nat (N + 1))); lia.
Qed.

Lemma C1_witness :
  exists sol,
    solve_addition_game 3 10 = Ok sol /\
    Z.of_nat (length (sol_V sol)) = 10 + 1 /\
    py_getitem (sol_V sol) 2
    = Ok (Int (if (10 - 2) mod (3 + 1) =? 0 then -1 else 1)) /\
    verify_analytical_solution 3 10 = Ok true.
Proof. apply (C1_value_table_is_closed_form 3 10 2); lia. Defined.

(** C2. For every [k >= 1] and [N >= 0], plain minimax from state 0 with
    Player I to move, alpha-beta from the same state with the window
    [(-inf, +inf)], and the entry [V[0]] of the solver's table are the same
    value; both searches return, whatever the counters they start from. *)
Theorem C2_three_methods_agree (k N n m : Z) :
  1 <= k -> 0 <= N ->
  exists v n' m' sol,
    minimax_tree 0 k N true n = Some (v, n') /\
    minimax_ab_tree 0 k N true NegInf PosInf m = Some (v, m') /\
    solve_addition_game k N = Ok sol /\
    py_getitem (sol_V sol) 0 = Ok v.
Proof.
  intros Hk HN. unfold minimax_tree, minimax_ab_tree.
  destruct (minimax_tree_fuel_closed k N Hk (tree_fuel 0 N) 0 true n
              ltac:(lia) ltac:(unfold tree_fuel; lia)) as (n' & Hmm & _).
  destruct (ab_simulates_minimax k N _ 0 true NegInf PosInf n m _ _
              eq_refl eq_refl eq_refl Hmm) as (r & m' & Hab & Hr & Hrel & _).
  apply ab_rel_full_window in Hrel;
    [subst r|unfold tree_value, closed_form; by destruct (_ =? _)|done..].
  destruct (solve_addition_game_closed k N Hk HN) as (V & policy & Hsol & HF).
  exists (Int (tree_value k N true 0)), n', m', (Solution V policy k N).
  repeat split; auto. exact (read_value k N V policy HF 0 ltac:(lia)).
Qed.

Lemma C2_witness :
  exists v n' m' sol,
    minimax_tree 0 3 10 true 0 = Some (v, n') /\
    minimax_ab_tree 0 3 10 true NegInf PosInf 0 = Some (v, m') /\
    solve_addition_game 3 10 = Ok sol /\
    py_getitem (sol_V sol) 0 = Ok v.
Proof. apply (C2_three_methods_agree 3 10 0 0); lia. Defined.

(** C3, as the specification states it, fails: with [k = 0] and [N = 2] the
    solver signals nothing and returns tables whose entries below [N] are
    [-inf] and [None]. *)
Lemma C3_counterexample :
  invalid_parameters 0 2 /\
  solve_addition_game 0 2
  = Ok (Solution [NegInf; NegInf; Int (-1)] [None; None; None] 0 2) /\
  ~ signals_invalid_parameter (solve_addition_game 0 2).
Proof.
  split; [left; lia|]. split; [reflexivity|].
  intros (e & He & _). discriminate He.
Qed.

(** C3, amended. The solver does not check its parameters.  With [N < 0] the
    base-case write [V[N] = -1] on the empty table raises [IndexError] and
    nothing is returned.  With [N >= 0] and [k < 1] it returns tables of
    length [N + 1] with [V[N] = -1] and [policy[N] = None], and, at every
    state [s < N], [V[s] = -inf] and [policy[s] = None]. *)
Theorem C3_parameters_are_not_checked (k N : Z) :
  invalid_parameters k N ->
  (N < 0 /\ solve_addition_game k N = Raise IndexError) \/
  (0 <= N /\ k < 1 /\
   exists sol,
     solve_addition_game k N = Ok sol /\
     Z.of_nat (length (sol_V sol)) = N + 1 /\
     Z.of_nat (length (sol_policy sol)) = N + 1 /\
     py_getitem (sol_V sol) N = Ok (Int (-1)) /\
     py_getitem (sol_policy sol) N = Ok None /\
     forall s, 0 <= s < N ->
       py_getitem (sol_V sol) s = Ok NegInf /\
       py_getitem (sol_policy sol) s = Ok None).
Proof.
  intros Hbad. destruct (Z.lt_ge_cases N 0) as [Hneg|HN].
  - left. split; [done|]. by apply solve_negative_threshold.
  - right. assert (Hk : k < 1) by (destruct Hbad; lia).
    split; [done|]. split; [done|].
    destruct (solve_no_moves k N Hk HN) as (V & policy & Hsol & HlV & Hlp & HF).
    exists (Solution V policy k N). cbn [sol_V sol_policy].
    split; [done|]. split; [lia|]. split; [lia|].
    destruct (HF N ltac:(lia)) as [HVN HpN]. rewrite Z.eqb_refl in HVN.
    split; [by apply py_getitem_lookup|].
    split; [by apply py_getitem_lookup|].
    intros s Hs. destruct (HF s ltac:(lia)) as [HVs Hps].
    destruct (Z.eqb_spec s N); [lia|].
    split; apply py_getitem_lookup; auto; lia.
Qed.

Lemma C3_witness :
  (2 < 0 /\ solve_addition_game 0 2 = Raise IndexError) \/
  (0 <= 2 /\ 0 < 1 /\
   exists sol,
     solve_addition_game 0 2 = Ok sol /\
     Z.of_nat (length (sol_V sol)) = 2 + 1 /\
     Z.of_nat (length (sol_policy sol)) = 2 + 1 /\
     py_getitem (sol_V sol) 2 = Ok (Int (-1)) /\
     py_getitem (sol_policy sol) 2 = Ok None /\
     forall s, 0 <= s < 2 ->
       py_getitem (sol_V sol) s = Ok NegInf /\
       py_getitem (sol_policy sol) s = Ok None).
Proof. apply (C3_parameters_are_not_checked 0 2). left. lia. Defined.

(** C4. For every [k >= 1] and [N >= 0], both searches started at state 0
    with Player I to move and a fresh counter return, and alpha-beta with
    the window [(-inf, +inf)] has counted no more nodes than plain minimax;
    for [k >= 2] and [N >= k + 2] it has counted strictly fewer. *)
Theorem C4_alpha_beta_visits_fewer_nodes (k N : Z) :
  1 <= k -> 0 <= N ->
  exists v nodes_mm r nodes_ab,
    minimax_tree 0 k N true 0 = Some (v, nodes_mm) /\
    minimax_ab_tree 0 k N true NegInf PosInf 0 = Some (r, nodes_ab) /\
    nodes_ab <= nodes_mm /\
    (2 <= k -> k + 2 <= N -> nodes_ab < nodes_mm).
Proof.
  intros Hk HN. unfold minimax_tree, minimax_ab_tree.
  destruct (minimax_tree_fuel_closed k N Hk (tree_fuel 0 N) 0 true 0
              ltac:(lia) ltac:(unfold tree_fuel; lia)) as (n' & Hmm & _).
  destruct (ab_simulates_minimax k N _ 0 true NegInf PosInf 0 0 _ _
              eq_refl eq_refl eq_refl Hmm) as (r & m' & Hab & _ & _ & _ & Hle).
  exists (Int (tree_value k N true 0)), n', r, m'.
  split; [done|]. split; [done|]. split; [lia|].
  intros Hk2 HN2.
  pose proof (ab_prunes k N Hk2 (tree_fuel 0 N) 0 true 0 0 _ _ _ _
                ltac:(lia) ltac:(unfold tree_fuel; lia) Hmm Hab).
  lia.
Qed.

Lemma C4_witness :
  1 <= 3 /\ 0 <= 10 /\ 2 <= 3 /\ 3 + 2 <= 10 /\
  exists v nodes_mm r nodes_ab,
    minimax_tree 0 3 10 true 0 = Some (v, nodes_mm) /\
    minimax_ab_tree 0 3 10 true NegInf PosInf 0 = Some (r, nodes_ab) /\
    nodes_ab <= nodes_mm /\ nodes_ab < nodes_mm.
Proof.
  repeat (split; [lia|]).
  destruct (C4_alpha_beta_visits_fewer_nodes 3 10 ltac:(lia) ltac:(lia))
    as (v & nodes_mm & r & nodes_ab & Hmm & Hab & Hle & Hlt).
  exists v, nodes_mm, r, nodes_ab.
  repeat split; [exact Hmm|exact Hab|exact Hle|apply Hlt; lia].
Defined.

(** C5. For every [k >= 1] and [N >= 0], the policy table returned has
    length [N + 1], [policy[N]] is [None], and at every state [s < N] the
    entry [policy[s]] is a move [i] in [1..k] whose value [move_value]
    ([-V[s + i]] when [s + i <= N], else [-1]) is [V[s]]; no smaller move has
    that value, and no move in [1..k] has a greater one. *)
Theorem C5_policy_attains_the_maximum (k N : Z) :
  1 <= k -> 0 <= N ->
  exists sol,
    solve_addition_game k N = Ok sol /\
    Z.of_nat (length (sol_policy sol)) = N + 1 /\
    py_getitem (sol_policy sol) N = Ok None /\
    forall s, 0 <= s < N ->
    exists i vs,
      py_getitem (sol_policy sol) s = Ok (Some i) /\ 1 <= i <= k /\
      py_getitem (sol_V sol) s = Ok vs /\
      move_value N (sol_V sol) s i = Ok vs /\
      (forall j, 1 <= j < i -> move_value N (sol_V sol) s j <> Ok vs) /\
      (forall j, 1 <= j <= k ->
         exists vj, move_value N (sol_V sol) s j = Ok vj /\ num_ge vs vj = true).
Proof.
  intros Hk HN.
  destruct (solve_addition_game_closed k N Hk HN) as (V & policy & Hsol & HF).
  exists (Solution V policy k N). cbn [sol_V sol_policy].
  split; [done|]. split; [destruct HF as (_ & -> & _); lia|].
  split.
  { apply py_getitem_lookup; [lia|]. destruct HF as (_ & _ & H).
    destruct (H N ltac:(lia)) as [_ ->]. unfold policy_entry.
    by rewrite Z.eqb_refl. }
  intros s Hs.
  assert (HV : values_above k N s V).
  { intros j Hj. destruct HF as (_ & _ & H). apply H. lia. }
  pose proof (residue_bounds k N Hk s) as Hr.
  exists (policy_closed k N s), (Int (closed_form s k N)).
  split; [by apply (read_policy k N V policy HF)|].
  split; [apply policy_closed_bounds; lia|].
  split; [apply (read_value k N V policy HF); lia|].
  split; [|split].
  - rewrite (read_candidate k N Hk) by (auto using policy_closed_bounds; lia).
    do 2 f_equal. unfold candidate, policy_closed. rewrite closed_form_residue.
    destruct (Z.eqb_spec (residue k N s) 0) as [->|?]; [done|].
    by rewrite Z.eqb_refl.
  - intros j Hj. assert (1 <= j <= k) by (pose proof (policy_closed_bounds k N Hk s); lia).
    rewrite (read_candidate k N Hk) by (auto; lia).
    intros [= Heq]. revert Hj Heq.
    unfold candidate, policy_closed. rewrite closed_form_residue.
    destruct (Z.eqb_spec (residue k N s) 0), (Z.eqb_spec j (residue k N s)); lia.
  - intros j Hj. exists (Int (candidate k N s j)).
    split; [apply (read_candidate k N Hk); auto; lia|].
    unfold candidate. rewrite closed_form_residue. unfold num_ge. cbn.
    destruct (Z.eqb_spec (residue k N s) 0), (Z.eqb_spec j (residue k N s));
      try reflexivity; lia.
Qed.

Lemma C5_witness :
  1 <= 3 /\ 0 <= 10 /\ 0 <= 4 < 10 /\
  exists sol,
    solve_addition_game 3 10 = Ok sol /\
    Z.of_nat (length (sol_policy sol)) = 10 + 1 /\
    py_getitem (sol_policy sol) 10 = Ok None /\
    exists i vs,
      py_getitem (sol_policy sol) 4 = Ok (Some i) /\ 1 <= i <= 3 /\
      py_getitem (sol_V sol) 4 = Ok vs /\
      move_value 10 (sol_V sol) 4 i = Ok vs /\
      (forall j, 1 <= j < i -> move_value 10 (sol_V sol) 4 j <> Ok vs) /\
      (forall j, 1 <= j <= 3 ->
         exists vj, move_value 10 (sol_V sol) 4 j = Ok vj /\ num_ge vs vj = true).
Proof.
  repeat (split; [lia|]).
  destruct (C5_policy_attains_the_maximum 3 10 ltac:(lia) ltac:(lia))
    as (sol & Hsol & Hlen & Hlast & Hall).
  exists sol. repeat (split; [assumption|]). apply Hall. lia.
Defined.

(** C6. For every [k >= 1] and [N >= 0], the last entry [V[N]] of the value
    table returned is [-1], also when [N = 0] and it is the only entry. *)
Theorem C6_base_case_is_a_loss (k N : Z) :
  1 <= k -> 0 <= N ->
  exists sol,
    solve_addition_game k N = Ok sol /\
    py_getitem (sol_V sol) N = Ok (Int (-1)).
Proof.
  intros Hk HN.
  destruct (solve_addition_game_closed k N Hk HN) as (V & policy & Hsol & HF).
  exists (Solution V policy k N). split; [done|]. cbn [sol_V].
  rewrite (read_value k N V policy HF N) by lia.
  by rewrite closed_form_at_N by lia.
Qed.

Lemma C6_witness :
  exists sol,
    solve_addition_game 2 0 = Ok sol /\
    py_getitem (sol_V sol) 0 = Ok (Int (-1)).
Proof. apply (C6_base_case_is_a_loss 2 0); lia. Defined.

(** C7. For every [k >= 1], [N >= 0] and state [s >= N], [minimax_tree]
    returns [-1] when Player I is to move and [+1] when Player II is, after
    counting the one node, whatever [k] is; [minimax_ab_tree] does the same
    for every [alpha] and [beta]. *)
Theorem C7_terminal_states (k N s : Z) (is_player1 : bool) (alpha beta : num)
    (nodes : Z) :
  1 <= k -> 0 <= N -> N <= s ->
  minimax_tree s k N is_player1 nodes
  = Some (Int (if is_player1 then -1 else 1), nodes + 1) /\
  minimax_ab_tree s k N is_player1 alpha beta nodes
  = Some (Int (if is_player1 then -1 else 1), nodes + 1).
Proof.
  intros _ _ Hs. unfold minimax_tree, minimax_ab_tree, tree_fuel.
  cbn [minimax_tree_fuel minimax_ab_tree_fuel]. cbv zeta.
  destruct (Z.geb_spec s N); [|lia]. by destruct is_player1.
Qed.

Lemma C7_witness :
  minimax_tree 12 3 10 false 0 = Some (Int (if false then -1 else 1), 0 + 1) /\
  minimax_ab_tree 12 3 10 false (Int 1) (Int (-1)) 0
  = Some (Int (if false then -1 else 1), 0 + 1).
Proof. apply (C7_terminal_states 3 10 12 false (Int 1) (Int (-1)) 0); lia. Defined.

(** C8. For every [k >= 1], [N >= 0] and every choice of the optimal or the
    worst-move policy for each player, the game simulated from sum 0 returns
    within [N + 1] iterations of its loop, after at most [N + 1] moves; every
    move raises the sum, the last move takes it above [N], its mover is the
    player named as the loser, and the other player is returned as winner. *)
Theorem C8_game_terminates (k N : Z) (p1_optimal p2_optimal : bool) :
  1 <= k -> 0 <= N ->
  exists out,
    (forall fuel, (Z.to_nat N < fuel)%nat ->
       demo_game_play fuel k N p1_optimal p2_optimal = Some (Ok out)) /\
    Z.of_nat (length (out_log out)) <= N + 1 /\
    game_over N 1 (out_log out) out.
Proof.
  intros Hk HN.
  destruct (solve_addition_game_closed k N Hk HN) as (V & policy & Hsol & HF).
  destruct (play_loop_terminates k N Hk V policy HF p1_optimal p2_optimal
              (S (Z.to_nat N)) 0 true 1 [] ltac:(lia) ltac:(lia))
    as (out & lines & Hrun & Hlog & Hlen & Hover).
  cbn [app] in Hlog. subst lines. exists out. split; [|split; [lia|done]].
  intros fuel Hfuel. unfold demo_game_play. rewrite Hsol. cbn [sol_V sol_policy].
  eapply play_loop_more_fuel; [|exact Hrun]. lia.
Qed.

Lemma C8_witness :
  1 <= 3 /\ 0 <= 10 /\
  exists out,
    demo_game_play 11 3 10 false true = Some (Ok out) /\
    Z.of_nat (length (out_log out)) <= 10 + 1 /\
    game_over 10 1 (out_log out) out.
Proof.
  repeat (split; [lia|]).
  destruct (C8_game_terminates 3 10 false true ltac:(lia) ltac:(lia))
    as (out & Hrun & Hlen & Hover).
  exists out. split; [apply Hrun; lia|]. split; assumption.
Defined.

(** C9. For [k = 3] and [N = 10], with enough iterations for either game,
    the game of an optimal Player I against a worst-move Player II is won by
    Player I, in no more moves than the game of two optimal players. *)
Theorem C9_weak_opponent_loses_no_later (fuel : nat) :
  (11 <= fuel)%nat ->
  exists both weak,
    demo_game_play fuel 3 10 true true = Some (Ok both) /\
    demo_game_play fuel 3 10 true false = Some (Ok weak) /\
    out_winner weak = PlayerI /\
    (length (out_log weak) <= length (out_log both))%nat.
Proof.
  intros Hfuel.
  destruct (demo_game_play 11 3 10 true true) as [[both|]|] eqn:Hboth;
    try (vm_compute in Hboth; discriminate).
  destruct (demo_game_play 11 3 10 true false) as [[weak|]|] eqn:Hweak;
    try (vm_compute in Hweak; discriminate).
  exists both, weak.
  split; [by apply (demo_game_play_more_fuel 3 10 true true _ 11)|].
  split; [by apply (demo_game_play_more_fuel 3 10 true false _ 11)|].
  vm_compute in Hboth, Hweak.
  injection Hboth as <-. injection Hweak as <-. cbn. split; [done|lia].
Qed.

Lemma C9_witness :
  exists both weak,
    demo_game_play 11 3 10 true true = Some (Ok both) /\
    demo_game_play 11 3 10 true false = Some (Ok weak) /\
    out_winner weak = PlayerI /\
    (length (out_log weak) <= length (out_log both))%nat.
Proof. apply (C9_weak_opponent_loses_no_later 11). lia. Defined.

(** C10. For every [k >= 1], [N >= 1] and state [0 <= s < N], the policy
    table returned holds at [s] the move [(N - s) mod (k + 1)] when that is
    not 0, and the move 1 when it is 0. *)
Theorem C10_policy_closed_form (k N s : Z) :
  1 <= k -> 1 <= N -> 0 <= s < N ->
  exists sol,
    solve_addition_game k N = Ok sol /\
    py_getitem (sol_policy sol) s
    = Ok (Some (if (N - s) mod (k + 1) =? 0 then 1 else (N - s) mod (k + 1))).
Proof.
  intros Hk HN Hs.
  destruct (solve_addition_game_closed k N Hk ltac:(lia))
    as (V & policy & Hsol & HF).
  exists (Solution V policy k N). split; [done|]. cbn [sol_policy].
  exact (read_policy k N V policy HF s Hs).
Qed.

Lemma C10_witness :
  exists sol,
    solve_addition_game 3 10 = Ok sol /\
    py_getitem (sol_policy sol) 7
    = Ok (Some (if (10 - 7) mod (3 + 1) =? 0 then 1 else (10 - 7) mod (3 + 1))).
Proof. apply (C10_policy_closed_form 3 10 7); lia. Defined.

(** * Further properties of the code *)

(** ** The searches at every state *)

(** X1. For every [k >= 1] and state [s <= N], [minimax_tree] returns the
    value of the state to Player I: the entry [V[s]] of the solver's table
    when Player I is to move, and its negation when Player II is. *)
Theorem X1_minimax_is_the_table (k N s : Z) (is_player1 : bool) (nodes : Z) :
  1 <= k -> 0 <= s <= N ->
  exists sol vs nodes',
    solve_addition_game k N = Ok sol /\
    py_getitem (sol_V sol) s = Ok vs /\
    minimax_tree s k N is_player1 nodes
    = Some (if is_player1 then vs else num_neg vs, nodes') /\
    nodes < nodes'.
Proof.
  intros Hk Hs.
  destruct (solve_addition_game_closed k N Hk ltac:(lia))
    as (V & policy & Hsol & HF).
  destruct (minimax_tree_fuel_closed k N Hk (tree_fuel s N) s is_player1 nodes
              ltac:(lia) ltac:(unfold tree_fuel; lia)) as (n' & Hmm & Hn').
  exists (Solution V policy k N), (Int (closed_form s k N)), n'.
  split; [done|]. split; [exact (read_value k N V policy HF s Hs)|].
  split; [|done]. unfold minimax_tree. rewrite Hmm. unfold tree_value.
  by destruct is_player1.
Qed.

Lemma X1_witness :
  exists sol vs nodes',
    solve_addition_game 3 10 = Ok sol /\
    py_getitem (sol_V sol) 6 = Ok vs /\
    minimax_tree 6 3 10 false 0
    = Some (if false then vs else num_neg vs, nodes') /\
    0 < nodes'.
Proof. apply (X1_minimax_is_the_table 3 10 6 false 0); lia. Defined.

(** X2. For every [k >= 1] and state [s <= N], with either player to move,
    alpha-beta with the window [(-inf, +inf)] returns the value plain
    minimax returns, and adds to its counter no more than minimax does. *)
Theorem X2_full_window_agrees_everywhere (k N s : Z) (is_player1 : bool)
    (n m : Z) :
  1 <= k -> 0 <= s <= N ->
  exists v n' m',
    minimax_tree s k N is_player1 n = Some (v, n') /\
    minimax_ab_tree s k N is_player1 NegInf PosInf m = Some (v, m') /\
    0 < m' - m <= n' - n.
Proof.
  intros Hk Hs. unfold minimax_tree, minimax_ab_tree.
  destruct (minimax_tree_fuel_closed k N Hk (tree_fuel s N) s is_player1 n
              ltac:(lia) ltac:(unfold tree_fuel; lia)) as (n' & Hmm & _).
  destruct (ab_simulates_minimax k N _ s is_player1 NegInf PosInf n m _ _
              eq_refl eq_refl eq_refl Hmm) as (r & m' & Hab & Hr & Hrel & Hm & Hle).
  apply ab_rel_full_window in Hrel;
    [subst r|unfold tree_value, closed_form;
             by destruct is_player1, (_ =? _)|done..].
  eexists _, n', m'. split; [exact Hmm|]. split; [exact Hab|lia].
Qed.

Lemma X2_witness :
  exists v n' m',
    minimax_tree 4 3 10 false 0 = Some (v, n') /\
    minimax_ab_tree 4 3 10 false NegInf PosInf 0 = Some (v, m') /\
    0 < m' - 0 <= n' - 0.
Proof. apply (X2_full_window_agrees_everywhere 3 10 4 false 0 0); lia. Defined.

Lemma ab_rel_window (alpha beta v r : num) :
  game_num alpha = true -> game_num beta = true ->
  game_num v = true -> game_num r = true ->
  ab_rel alpha beta v r = true ->
  (num_lt alpha v = true -> num_lt v beta = true -> r = v) /\
  (num_ge alpha v = true -> num_ge alpha r = true) /\
  (num_ge v beta = true -> num_ge r beta = true).
Proof.
  intros Ha Hb Hv Hr Hrel.
  assert (H : for_game (fun a => for_game (fun b => for_game (fun v =>
                for_game (fun r =>
                  implb (ab_rel a b v r)
                    (implb (num_lt a v && num_lt v b) (num_eqb r v) &&
                     implb (num_ge a v) (num_ge a r) &&
                     implb (num_ge v b) (num_ge r b)))))) = true)
    by (vm_compute; reflexivity).
  apply (for_game_elim _ alpha) in H; [|done]. cbv beta in H.
  apply (for_game_elim _ beta) in H; [|done]. cbv beta in H.
  apply (for_game_elim _ v) in H; [|done]. cbv beta in H.
  apply (for_game_elim _ r) in H; [|done]. cbv beta in H.
  rewrite Hrel in H. cbn [implb] in H.
  apply andb_true_iff in H as [H H3]. apply andb_true_iff in H as [H1 H2].
  split; [|split].
  - intros E1 E2. rewrite E1, E2 in H1. by apply num_eqb_eq.
  - intros E. by rewrite E in H2.
  - intros E. by rewrite E in H3.
Qed.

(** X3. For every [k >= 1], state [s <= N] and window [alpha < beta] made
    of [-inf], [-1], [+1] and [+inf], [minimax_ab_tree] returns: the minimax
    value [v] of the state when [v] lies strictly inside the window; some
    value at or below [alpha] when [v <= alpha]; and some value at or above
    [beta] when [v >= beta]. *)
Theorem X3_alpha_beta_window (k N s : Z) (is_player1 : bool) (alpha beta : num)
    (n m : Z) :
  1 <= k -> 0 <= s <= N ->
  game_num alpha = true -> game_num beta = true -> num_lt alpha beta = true ->
  exists v n' r m',
    minimax_tree s k N is_player1 n = Some (v, n') /\
    minimax_ab_tree s k N is_player1 alpha beta m = Some (r, m') /\
    (num_lt alpha v = true -> num_lt v beta = true -> r = v) /\
    (num_ge alpha v = true -> num_ge alpha r = true) /\
    (num_ge v beta = true -> num_ge r beta = true) /\
    0 < m' - m <= n' - n.
Proof.
  intros Hk Hs Ha Hb Hab. unfold minimax_tree, minimax_ab_tree.
  destruct (minimax_tree_fuel_closed k N Hk (tree_fuel s N) s is_player1 n
              ltac:(lia) ltac:(unfold tree_fuel; lia)) as (n' & Hmm & _).
  destruct (ab_simulates_minimax k N _ s is_player1 alpha beta n m _ _
              Ha Hb Hab Hmm) as (r & m' & Hrun & Hr & Hrel & Hm & Hle).
  destruct (minimax_tree_fuel_game k N _ _ _ _ _ _ Hmm) as [Hv _].
  destruct (ab_rel_window alpha beta _ r Ha Hb Hv Hr Hrel) as (H1 & H2 & H3).
  eexists _, n', r, m'. split; [exact Hmm|]. split; [exact Hrun|].
  repeat split; auto; lia.
Qed.

Lemma X3_witness :
  exists v n' r m',
    minimax_tree 2 3 10 false 0 = Some (v, n') /\
    minimax_ab_tree 2 3 10 false (Int (-1)) (Int 1) 0 = Some (r, m') /\
    (num_lt (Int (-1)) v = true -> num_lt v (Int 1) = true -> r = v) /\
    (num_ge (Int (-1)) v = true -> num_ge (Int (-1)) r = true) /\
    (num_ge v (Int 1) = true -> num_ge r (Int 1) = true) /\
    0 < m' - 0 <= n' - 0.
Proof.
  apply (X3_alpha_beta_window 3 10 2 false (Int (-1)) (Int 1) 0 0);
    (lia || reflexivity).
Defined.

(** ** The node counter *)

Section counter.
Variables s N d : Z.

Lemma max_loop_shift (child : Z -> Z -> option (num * Z)) (moves : list Z) :
  (forall s' n, child s' (n + d) = shift d (child s' n)) ->
  forall best n,
  max_loop child s N moves best (n + d)
  = shift d (max_loop child s N moves best n).
Proof.
  intros Hchild. induction moves as [|i rest IH]; intros best n; [done|].
  cbn [max_loop]. destruct (s + i <=? N).
  - rewrite Hchild. destruct (child (s + i) n) as [[v n1]|]; [apply IH|done].
  - apply IH.
Qed.

Lemma min_loop_shift (child : Z -> Z -> option (num * Z)) (moves : list Z) :
  (forall s' n, child s' (n + d) = shift d (child s' n)) ->
  forall best n,
  min_loop child s N moves best (n + d)
  = shift d (min_loop child s N moves best n).
Proof.
  intros Hchild. induction moves as [|i rest IH]; intros best n; [done|].
  cbn [min_loop]. destruct (s + i <=? N).
  - rewrite Hchild. destruct (child (s + i) n) as [[v n1]|]; [apply IH|done].
  - apply IH.
Qed.

Lemma ab_max_loop_shift (child : Z -> num -> num -> Z -> option (num * Z))
    (moves : list Z) :
  (forall s' a b n, child s' a b (n + d) = shift d (child s' a b n)) ->
  forall best alpha beta n,
  ab_max_loop child s N moves best alpha beta (n + d)
  = shift d (ab_max_loop child s N moves best alpha beta n).
Proof.
  intros Hchild. induction moves as [|i rest IH]; intros best alpha beta n;
    [done|].
  cbn [ab_max_loop]. destruct (s + i >? N).
  - cbv zeta. destruct (num_ge _ beta); [done|apply IH].
  - rewrite Hchild. destruct (child (s + i) alpha beta n) as [[v n1]|]; [|done].
    cbv zeta. cbn [shift]. destruct (num_ge _ beta); [done|apply IH].
Qed.

Lemma ab_min_loop_shift (child : Z -> num -> num -> Z -> option (num * Z))
    (moves : list Z) :
  (forall s' a b n, child s' a b (n + d) = shift d (child s' a b n)) ->
  forall best alpha beta n,
  ab_min_loop child s N moves best alpha beta (n + d)
  = shift d (ab_min_loop child s N moves best alpha beta n).
Proof.
  intros Hchild. induction moves as [|i rest IH]; intros best alpha beta n;
    [done|].
  cbn [ab_min_loop]. destruct (s + i >? N).
  - cbv zeta. destruct (num_ge alpha _); [done|apply IH].
  - rewrite Hchild. destruct (child (s + i) alpha beta n) as [[v n1]|]; [|done].
    cbv zeta. cbn [shift]. destruct (num_ge alpha _); [done|apply IH].
Qed.
End counter.

Lemma minimax_tree_fuel_shift (k N d : Z) (fuel : nat) :
  forall s p n,
  minimax_tree_fuel fuel s k N p (n + d)
  = shift d (minimax_tree_fuel fuel s k N p n).
Proof.
  induction fuel as [|f IH]; intros s p n; [done|].
  cbn [minimax_tree_fuel]. cbv zeta.
  replace (n + d + 1) with (n + 1 + d) by lia.
  destruct (s >=? N); [by destruct p|].
  destruct p; [apply max_loop_shift|apply min_loop_shift]; intros; apply IH.
Qed.

Lemma minimax_ab_tree_fuel_shift (k N d : Z) (fuel : nat) :
  forall s p alpha beta n,
  minimax_ab_tree_fuel fuel s k N p alpha beta (n + d)
  = shift d (minimax_ab_tree_fuel fuel s k N p alpha beta n).
Proof.
  induction fuel as [|f IH]; intros s p alpha beta n; [done|].
  cbn [minimax_ab_tree_fuel]. cbv zeta.
  replace (n + d + 1) with (n + 1 + d) by lia.
  destruct (s >=? N); [done|].
  destruct p; [apply ab_max_loop_shift|apply ab_min_loop_shift];
    intros; apply IH.
Qed.

(** X4. The counter [stats.nodes] does not influence [minimax_tree]: started
    with [d] more on the counter, the search returns the same value (or
    fails to return alike) and leaves [d] more on the counter, for all
    parameters, valid or not. *)
Theorem X4_minimax_counter_is_inert (k N s : Z) (is_player1 : bool) (n d : Z) :
  minimax_tree s k N is_player1 (n + d)
  = shift d (minimax_tree s k N is_player1 n).
Proof. apply minimax_tree_fuel_shift. Qed.

(** X5. The same for [minimax_ab_tree] and every window: the cutoffs it
    takes do not depend on the counter. *)
Theorem X5_alpha_beta_counter_is_inert (k N s : Z) (is_player1 : bool)
    (alpha beta : num) (n d : Z) :
  minimax_ab_tree s k N is_player1 alpha beta (n + d)
  = shift d (minimax_ab_tree s k N is_player1 alpha beta n).
Proof. apply minimax_ab_tree_fuel_shift. Qed.

(** ** The searches without a move to try *)

(** X6. With [k < 1] there is no move to try: at a state below [N],
    [minimax_tree] and [minimax_ab_tree] return the float [-inf] for
    Player I and [+inf] for Player II, not a payoff, after counting the one
    node. *)
Theorem X6_search_without_moves (k N s : Z) (is_player1 : bool)
    (alpha beta : num) (nodes : Z) :
  k < 1 -> s < N ->
  minimax_tree s k N is_player1 nodes
  = Some (if is_player1 then NegInf else PosInf, nodes + 1) /\
  minimax_ab_tree s k N is_player1 alpha beta nodes
  = Some (if is_player1 then NegInf else PosInf, nodes + 1).
Proof.
  intros Hk Hs. unfold minimax_tree, minimax_ab_tree, tree_fuel.
  cbn [minimax_tree_fuel minimax_ab_tree_fuel]. cbv zeta.
  destruct (Z.geb_spec s N); [lia|].
  rewrite (py_range_nil 1 (k + 1)) by lia. by destruct is_player1.
Qed.

Lemma X6_witness :
  minimax_tree 0 0 5 true 0 = Some (if true then NegInf else PosInf, 0 + 1) /\
  minimax_ab_tree 0 0 5 true NegInf PosInf 0
  = Some (if true then NegInf else PosInf, 0 + 1).
Proof. apply (X6_search_without_moves 0 5 0 true NegInf PosInf 0); lia. Defined.

(** ** The check and the game on parameters outside the game *)

(** X7. On parameters outside the game ([k < 1] or [N < 0]),
    [verify_analytical_solution] raises the solver's [IndexError] when
    [N < 0]; else raises [ZeroDivisionError] when [k = -1], the modulus
    [k + 1] being 0; else answers [True] when [N = 0], where the table is
    the base case alone; and else answers [False], the entry [V[0] = -inf]
    not being the expected payoff. *)
Theorem X7_check_outside_the_game (k N : Z) :
  invalid_parameters k N ->
  verify_analytical_solution k N
  = if N <? 0 then Raise IndexError
    else if k =? -1 then Raise ZeroDivisionError
    else if N =? 0 then Ok true
    else Ok false.
Proof.
  intros Hbad. unfold verify_analytical_solution.
  destruct (Z.ltb_spec N 0) as [HN|HN].
  { by rewrite solve_negative_threshold. }
  assert (Hk : k < 1) by (destruct Hbad; lia).
  destruct (solve_no_moves k N Hk HN) as (V & policy & -> & HlV & Hlp & HF).
  cbn [mbind res_bind sol_V]. rewrite py_range_cons by lia.
  cbn [verify_loop]. unfold py_mod.
  destruct (Z.eqb_spec k (-1)) as [->|Hk1]; [done|].
  destruct (Z.eqb_spec (k + 1) 0); [lia|]. cbn [mbind res_bind]. cbv zeta.
  destruct (HF 0 ltac:(lia)) as [HV0 _].
  rewrite (py_getitem_lookup V 0 _ ltac:(lia) HV0). cbn [mbind res_bind].
  destruct (Z.eqb_spec N 0) as [->|HN0].
  - rewrite Z.eqb_refl. cbn. by rewrite py_range_nil.
  - destruct (Z.eqb_spec 0 N); [lia|]. done.
Qed.

Lemma X7_witness :
  verify_analytical_solution 0 3
  = if 3 <? 0 then Raise IndexError
    else if 0 =? -1 then Raise ZeroDivisionError
    else if 3 =? 0 then Ok true
    else Ok false.
Proof. apply (X7_check_outside_the_game 0 3). left. lia. Defined.

(** X8. On parameters outside the game with Player I on the optimal
    policy, [demo_game_play] raises the solver's [IndexError] when [N < 0];
    with [N = 0] it returns at once, Player I busting from the threshold
    and Player II winning; and with [N >= 1] (so [k < 1]) it raises
    [TypeError] at the first move, [policy[0]] being [None]. *)
Theorem X8_game_outside_the_game (fuel : nat) (k N : Z) (p2_optimal : bool) :
  invalid_parameters k N -> (1 <= fuel)%nat ->
  demo_game_play fuel k N true p2_optimal
  = if N <? 0 then Some (Raise IndexError)
    else if N =? 0
    then Some (Ok (Outcome [MoveLine 1 PlayerI 0 (Some (Int (-1))) 1 1]
                           PlayerI PlayerII))
    else Some (Raise TypeError).
Proof.
  intros Hbad Hfuel. unfold demo_game_play.
  destruct (Z.ltb_spec N 0) as [HN|HN].
  { by rewrite solve_negative_threshold. }
  assert (Hk : k < 1) by (destruct Hbad; lia).
  destruct (solve_no_moves k N Hk HN) as (V & policy & -> & HlV & Hlp & HF).
  cbn [sol_V sol_policy]. destruct fuel as [|f]; [lia|].
  cbn [play_loop]. cbv zeta.
  destruct (HF 0 ltac:(lia)) as [HV0 Hp0].
  rewrite (py_getitem_lookup V 0 _ ltac:(lia) HV0).
  rewrite (py_getitem_lookup policy 0 _ ltac:(lia) Hp0).
  destruct (Z.leb_spec 0 N); [|lia]. cbn [mbind res_bind].
  destruct (Z.eqb_spec 0 N) as [<-|HN0].
  - by rewrite Z.eqb_refl.
  - destruct (Z.eqb_spec N 0); [lia|]. done.
Qed.

Lemma X8_witness :
  demo_game_play 1 0 4 true false
  = if 4 <? 0 then Some (Raise IndexError)
    else if 4 =? 0
    then Some (Ok (Outcome [MoveLine 1 PlayerI 0 (Some (Int (-1))) 1 1]
                           PlayerI PlayerII))
    else Some (Raise TypeError).
Proof. apply (X8_game_outside_the_game 1 0 4 false); [left|]; lia. Defined.

(** ** The optimal policy *)

(** X9. For every [k >= 1] and state [s < N], the move [policy[s]] does not
    bust.  From a won state ([V[s] = +1]) it reaches a state lost for the
    opponent; from a lost state it is the move 1 and reaches a state won
    for the opponent. *)
Theorem X9_policy_never_busts (k N s : Z) :
  1 <= k -> 0 <= s < N ->
  exists sol i vs vnext,
    solve_addition_game k N = Ok sol /\
    py_getitem (sol_policy sol) s = Ok (Some i) /\
    py_getitem (sol_V sol) s = Ok vs /\
    s + i <= N /\
    py_getitem (sol_V sol) (s + i) = Ok vnext /\
    (vs = Int 1 -> vnext = Int (-1)) /\
    (vs = Int (-1) -> i = 1 /\ vnext = Int 1).
Proof.
  intros Hk Hs.
  destruct (solve_addition_game_closed k N Hk ltac:(lia))
    as (V & policy & Hsol & HF).
  pose proof (residue_bounds k N Hk s) as Hr.
  pose proof (residue_le k N Hk s ltac:(lia)) as Hle.
  assert (Hi : s + policy_closed k N s <= N).
  { unfold policy_closed. destruct (Z.eqb_spec (residue k N s) 0); lia. }
  pose proof (policy_closed_bounds k N Hk s) as Hpc.
  exists (Solution V policy k N), (policy_closed k N s),
    (Int (closed_form s k N)), (Int (closed_form (s + policy_closed k N s) k N)).
  cbn [sol_V sol_policy].
  split; [done|]. split; [by apply (read_policy k N V policy HF)|].
  split; [apply (read_value k N V policy HF); lia|]. split; [done|].
  split; [apply (read_value k N V policy HF); lia|].
  rewrite !closed_form_residue. unfold policy_closed.
  pose proof (residue_step k N Hk s) as Hstep.
  destruct (Z.eqb_spec (residue k N s) 0) as [E0|E0].
  - split; [discriminate|]. intros _. split; [done|].
    destruct (Z.eqb_spec (residue k N (s + 1)) 0) as [E1|E1]; [|done].
    apply Hstep in E1; lia.
  - split; [|discriminate]. intros _.
    destruct (Z.eqb_spec (residue k N (s + residue k N s)) 0) as [E1|E1];
      [done|].
    exfalso. apply E1, Hstep; lia.
Qed.

Lemma X9_witness :
  exists sol i vs vnext,
    solve_addition_game 3 10 = Ok sol /\
    py_getitem (sol_policy sol) 3 = Ok (Some i) /\
    py_getitem (sol_V sol) 3 = Ok vs /\
    3 + i <= 10 /\
    py_getitem (sol_V sol) (3 + i) = Ok vnext /\
    (vs = Int 1 -> vnext = Int (-1)) /\
    (vs = Int (-1) -> i = 1 /\ vnext = Int 1).
Proof. apply (X9_policy_never_busts 3 10 3); lia. Defined.

(** ** Who wins the simulated game *)

Section outcome_of_play.
Variables k N : Z.
Hypothesis Hk : 1 <= k.
Variable V : list num.
Variable policy : list (option Z).
Hypothesis Hfilled : filled_from k N 0 V policy.

Lemma read_candidate_le (s j : Z) :
  0 <= s <= N -> 1 <= j <= k ->
  (if s + j <=? N then v ← py_getitem V (s + j); Ok (num_neg v)
   else Ok (Int (-1)))
  = Ok (Int (candidate k N s j)).
Proof.
  intros Hs Hj. destruct (Z.leb_spec (s + j) N).
  - rewrite (read_value k N V policy Hfilled) by lia. cbn.
    by rewrite candidate_safe by lia.
  - by rewrite candidate_bust by lia.
Qed.

(** In a lost state every move is worth [-1], and the worst-move scan keeps
    the first. *)
Lemma worst_scan_lost_rest (s : Z) (moves : list Z) :
  0 <= s <= N -> residue k N s = 0 ->
  Forall (fun j => 1 <= j < k + 1) moves ->
  worst_scan N V s moves (Int (-1)) 1 = Ok (Int (-1), 1).
Proof.
  intros Hs Hr. induction moves as [|j rest IH]; intros Hall; [done|].
  apply Forall_cons in Hall as [Hj Hrest]. cbn [worst_scan].
  rewrite read_candidate_le by lia. unfold candidate. rewrite Hr.
  destruct (Z.eqb_spec j 0); [lia|]. cbn. by apply IH.
Qed.

Lemma worst_scan_lost (s : Z) :
  0 <= s <= N -> residue k N s = 0 ->
  worst_scan N V s (py_range 1 (k + 1)) PosInf 1 = Ok (Int (-1), 1).
Proof.
  intros Hs Hr. rewrite py_range_cons by lia. cbn [worst_scan].
  rewrite read_candidate_le by lia. unfold candidate. rewrite Hr. cbn.
  apply worst_scan_lost_rest; auto.
  eapply Forall_impl; [apply py_range_bounds|]. cbn. lia.
Qed.

(** The mover of a lost state plays 1 under either policy. *)
Lemma move_lost (optimal : bool) (s : Z) :
  0 <= s < N -> residue k N s = 0 ->
  (if optimal
   then m ← py_getitem policy s;
        match m with Some i => Ok i | None => Raise TypeError end
   else '(_, i) ← worst_scan N V s (py_range 1 (k + 1)) PosInf 1; Ok i)
  = Ok 1.
Proof.
  intros Hs Hr. destruct optimal.
  - rewrite (read_policy k N V policy Hfilled) by lia. cbn.
    unfold policy_closed. by rewrite Hr.
  - by rewrite worst_scan_lost by lia.
Qed.

(** The optimal mover of a won state plays its residue. *)
Lemma move_won (s : Z) :
  0 <= s < N -> residue k N s <> 0 ->
  (m ← py_getitem policy s;
   match m with Some i => Ok i | None => Raise TypeError end)
  = Ok (residue k N s).
Proof.
  intros Hs Hr. rewrite (read_policy k N V policy Hfilled) by lia. cbn.
  unfold policy_closed. by destruct (Z.eqb_spec (residue k N s) 0).
Qed.

Lemma residue_at_N : residue k N N = 0.
Proof. unfold residue. rewrite Z.sub_diag. apply Z.mod_0_l. lia. Qed.

(** [w] says whether Player I is the side that plays optimally from won
    states; [on_course] holds in the states that side brings about. *)
Variable w : bool.
Variables p1 p2 : bool.
Hypothesis Hw : (if w then p1 else p2) = true.

Lemma optimal_flag (is_p1 : bool) :
  is_p1 = w -> (is_p1 && p1) || (negb is_p1 && p2) = true.
Proof. intros ->. destruct w; cbn; by rewrite Hw. Qed.

Lemma play_loop_winner (fuel : nat) :
  forall s is_p1 move_num log,
  0 <= s <= N -> (Z.to_nat (N - s) < fuel)%nat ->
  on_course k N w s is_p1 ->
  exists out lines l,
    play_loop fuel k N V policy p1 p2 s is_p1 move_num log = Some (Ok out) /\
    out_winner out = mover w /\
    out_log out = log ++ lines /\
    last lines = Some l /\ ml_s l = N /\ ml_pick l = 1 /\ ml_sum l = N + 1.
Proof.
  induction fuel as [|f IH]; intros s is_p1 move_num log Hs Hfuel Hon; [lia|].
  cbn [play_loop]. cbv zeta.
  rewrite (read_value k N V policy Hfilled) by lia.
  destruct (Z.leb_spec s N); [|lia]. cbn [mbind res_bind].
  unfold on_course in Hon.
  destruct (Z.eqb_spec s N) as [->|Hne].
  - rewrite residue_at_N in Hon.
    destruct (Bool.eqb is_p1 w) eqn:E; [done|].
    eexists _, [_], _. split; [reflexivity|]. cbn.
    split; [by destruct is_p1, w|]. by repeat split.
  - destruct (Bool.eqb is_p1 w) eqn:E.
    + apply Bool.eqb_prop in E. rewrite (optimal_flag _ E).
      rewrite move_won by (auto; lia).
      pose proof (residue_bounds k N Hk s).
      pose proof (residue_le k N Hk s ltac:(lia)).
      destruct (Z.gtb_spec (s + residue k N s) N); [lia|].
      rewrite (read_value k N V policy Hfilled) by lia.
      destruct (IH (s + residue k N s) (negb is_p1) (move_num + 1)
                  (log ++ [MoveLine move_num (mover is_p1) s
                             (Some (Int (closed_form s k N)))
                             (residue k N s) (s + residue k N s)])
                  ltac:(lia) ltac:(lia))
        as (out & lines & l & -> & Hwin & Hlog & Hlast & Hl).
      { unfold on_course. subst is_p1.
        replace (Bool.eqb (negb w) w) with false by by destruct w.
        apply (residue_step k N Hk); lia. }
      eexists out, (_ :: lines), l. split; [reflexivity|]. split; [done|].
      split; [by rewrite Hlog, <- app_assoc|].
      split; [|done]. destruct lines; [discriminate|]. by rewrite last_cons_cons.
    + rewrite move_lost by (auto; lia).
      destruct (Z.gtb_spec (s + 1) N); [lia|].
      rewrite (read_value k N V policy Hfilled) by lia.
      destruct (IH (s + 1) (negb is_p1) (move_num + 1)
                  (log ++ [MoveLine move_num (mover is_p1) s
                             (Some (Int (closed_form s k N))) 1 (s + 1)])
                  ltac:(lia) ltac:(lia))
        as (out & lines & l & -> & Hwin & Hlog & Hlast & Hl).
      { unfold on_course.
        replace (Bool.eqb (negb is_p1) w) with true by by destruct is_p1, w.
        intros E1. apply (residue_step k N Hk) in E1; lia. }
      eexists out, (_ :: lines), l. split; [reflexivity|]. split; [done|].
      split; [by rewrite Hlog, <- app_assoc|].
      split; [|done]. destruct lines; [discriminate|]. by rewrite last_cons_cons.
Qed.

(** The policy of the other side changes nothing. *)
Variables p1' p2' : bool.
Hypothesis Hw' : (if w then p1' else p2') = true.

Lemma play_loop_other_policy (fuel : nat) :
  forall s is_p1 move_num log,
  0 <= s <= N -> on_course k N w s is_p1 ->
  play_loop fuel k N V policy p1 p2 s is_p1 move_num log
  = play_loop fuel k N V policy p1' p2' s is_p1 move_num log.
Proof.
  induction fuel as [|f IH]; intros s is_p1 move_num log Hs Hon; [done|].
  cbn [play_loop]. cbv zeta.
  rewrite (read_value k N V policy Hfilled) by lia.
  destruct (Z.leb_spec s N); [|lia]. cbn [mbind res_bind].
  unfold on_course in Hon.
  destruct (Z.eqb_spec s N) as [->|Hne]; [done|].
  destruct (Bool.eqb is_p1 w) eqn:E.
  - apply Bool.eqb_prop in E.
    assert (E' : (is_p1 && p1') || (negb is_p1 && p2') = true)
      by (subst is_p1; destruct w; cbn; by rewrite Hw').
    rewrite (optimal_flag _ E), E'.
    rewrite move_won by (auto; lia).
    pose proof (residue_bounds k N Hk s).
    pose proof (residue_le k N Hk s ltac:(lia)).
    destruct (Z.gtb_spec (s + residue k N s) N); [lia|].
    rewrite (read_value k N V policy Hfilled) by lia.
    apply IH; [lia|]. unfold on_course. subst is_p1.
    replace (Bool.eqb (negb w) w) with false by by destruct w.
    apply (residue_step k N Hk); lia.
  - rewrite !move_lost by (auto; lia).
    destruct (Z.gtb_spec (s + 1) N); [lia|].
    rewrite (read_value k N V policy Hfilled) by lia.
    apply IH; [lia|]. unfold on_course.
    replace (Bool.eqb (negb is_p1) w) with true by by destruct is_p1, w.
    intros E1. apply (residue_step k N Hk) in E1; lia.
Qed.
End outcome_of_play.

Lemma on_course_start (k N : Z) :
  on_course k N (negb (N mod (k + 1) =? 0)) 0 true.
Proof.
  unfold on_course, residue. rewrite Z.sub_0_r.
  by destruct (Z.eqb_spec (N mod (k + 1)) 0).
Qed.

(** X10. For every [k >= 1] and [N >= 0], the side that the table says wins
    from sum 0 (Player I unless [k + 1] divides [N]) wins the simulated game
    whenever it is on the optimal policy, whichever policy the other side is
    on; the game ends with the loser at sum [N], busting with the move 1. *)
Theorem X10_optimal_side_wins (fuel : nat) (k N : Z) (p1_optimal p2_optimal : bool) :
  1 <= k -> 0 <= N ->
  (if N mod (k + 1) =? 0 then p2_optimal else p1_optimal) = true ->
  (Z.to_nat N < fuel)%nat ->
  exists out l,
    demo_game_play fuel k N p1_optimal p2_optimal = Some (Ok out) /\
    out_winner out = (if N mod (k + 1) =? 0 then PlayerII else PlayerI) /\
    last (out_log out) = Some l /\
    ml_s l = N /\ ml_pick l = 1 /\ ml_sum l = N + 1.
Proof.
  intros Hk HN Hopt Hfuel.
  destruct (solve_addition_game_closed k N Hk HN) as (V & policy & Hsol & HF).
  destruct (play_loop_winner k N Hk V policy HF (negb (N mod (k + 1) =? 0))
              p1_optimal p2_optimal
              ltac:(by destruct (N mod (k + 1) =? 0))
              fuel 0 true 1 [] ltac:(lia) ltac:(lia) (on_course_start k N))
    as (out & lines & l & Hrun & Hwin & Hlog & Hlast & Hl).
  cbn [app] in Hlog. subst lines. exists out, l.
  unfold demo_game_play. rewrite Hsol. cbn [sol_V sol_policy].
  split; [done|]. split; [|done].
  rewrite Hwin. by destruct (N mod (k + 1) =? 0).
Qed.

Lemma X10_witness :
  exists out l,
    demo_game_play 21 4 20 false true = Some (Ok out) /\
    out_winner out = (if 20 mod (4 + 1) =? 0 then PlayerII else PlayerI) /\
    last (out_log out) = Some l /\
    ml_s l = 20 /\ ml_pick l = 1 /\ ml_sum l = 20 + 1.
Proof.
  apply (X10_optimal_side_wins 21 4 20 false true); (lia || reflexivity).
Defined.

(** X11. For every [k >= 1] and [N >= 0], when the side that wins from
    sum 0 is on the optimal policy, the policy of the other side is
    immaterial: a lost state offers only moves of value [-1], of which both
    policies pick the first, so the game is the same move for move. *)
Theorem X11_lost_side_policy_is_immaterial (fuel : nat) (k N : Z)
    (p1 p2 p1' p2' : bool) :
  1 <= k -> 0 <= N ->
  (if N mod (k + 1) =? 0 then p2 && p2' else p1 && p1') = true ->
  demo_game_play fuel k N p1 p2 = demo_game_play fuel k N p1' p2'.
Proof.
  intros Hk HN Hopt.
  destruct (solve_addition_game_closed k N Hk HN) as (V & policy & Hsol & HF).
  unfold demo_game_play. rewrite Hsol. cbn [sol_V sol_policy].
  apply (play_loop_other_policy k N Hk V policy HF
           (negb (N mod (k + 1) =? 0)));
    [| |lia|apply on_course_start];
    destruct (N mod (k + 1) =? 0); cbn;
    apply andb_true_iff in Hopt; tauto.
Qed.

Lemma X11_witness :
  demo_game_play 11 3 10 true false = demo_game_play 11 3 10 true true.
Proof.
  apply (X11_lost_side_policy_is_immaterial 11 3 10 true false true true);
    (lia || reflexivity).
Defined.

(** ** The lost states, listed *)

Section lost_states.
Variables k N : Z.
Hypothesis Hk : 1 <= k.

Lemma residue_period (s : Z) : residue k N (s + (k + 1)) = residue k N s.
Proof.
  unfold residue. replace (N - (s + (k + 1))) with (N - s + (-1) * (k + 1)) by lia.
  apply Z.mod_add. lia.
Qed.

Lemma residue_between (s x : Z) :
  residue k N s = 0 -> s < x < s + (k + 1) -> residue k N x <> 0.
Proof.
  intros Hs Hx E.
  pose proof (residue_step k N Hk s (x - s) ltac:(lia)) as [H _].
  replace (s + (x - s)) with x in H by lia. specialize (H E). lia.
Qed.

Lemma lost_from_nil (a : Z) : N < a -> lost_from k N a = [].
Proof. intros Ha. unfold lost_from. by rewrite py_range_nil by lia. Qed.

Lemma lost_from_cons (a : Z) :
  a <= N -> residue k N a = 0 -> lost_from k N a = a :: lost_from k N (a + 1).
Proof.
  intros Ha Hr. unfold lost_from. rewrite py_range_cons by lia.
  cbn [List.filter]. unfold lost_state at 1. by rewrite Hr.
Qed.

(** States that are not lost can be skipped. *)
Lemma lost_from_skip (n : nat) :
  forall a, (forall x, a <= x < a + Z.of_nat n -> residue k N x <> 0) ->
  lost_from k N a = lost_from k N (a + Z.of_nat n).
Proof.
  induction n as [|n IH]; intros a Hskip.
  - by replace (a + Z.of_nat 0) with a by lia.
  - replace (a + Z.of_nat (S n)) with (a + 1 + Z.of_nat n) by lia.
    destruct (Z.le_gt_cases a N) as [Ha|Ha].
    + rewrite <- IH by (intros x Hx; apply Hskip; lia).
      unfold lost_from. rewrite (py_range_cons a) by lia. cbn [List.filter].
      unfold lost_state at 1.
      destruct (Z.eqb_spec (residue k N a) 0) as [E|_]; [|done].
      exfalso. apply (Hskip a); [lia|done].
    + by rewrite !lost_from_nil by lia.
Qed.

Lemma lost_from_next (s : Z) :
  s <= N -> residue k N s = 0 ->
  lost_from k N s = s :: lost_from k N (s + (k + 1)).
Proof.
  intros Hs Hr. rewrite lost_from_cons by done. f_equal.
  rewrite (lost_from_skip (Z.to_nat k) (s + 1)).
  - f_equal. lia.
  - intros x Hx. apply (residue_between s); [done|lia].
Qed.

(** The lost states from a lost state on are an arithmetic progression. *)
Lemma lost_from_progression (n : nat) :
  forall t, residue k N t = 0 -> t <= N + (k + 1) ->
  Z.to_nat ((N - t) / (k + 1) + 1) = n ->
  lost_from k N t = progression k N t.
Proof.
  induction n as [|n IH]; intros t Hr Ht Hn.
  - unfold progression. rewrite Hn. cbn.
    apply lost_from_nil.
    destruct (Z.le_gt_cases t N); [|done].
    pose proof (Z.div_pos (N - t) (k + 1) ltac:(lia) ltac:(lia)). lia.
  - assert (HtN : t <= N).
    { destruct (Z.le_gt_cases t N); [done|].
      assert ((N - t) / (k + 1) < 0) by (apply Z.div_lt_upper_bound; lia). lia. }
    assert (Hdiv : (N - (t + (k + 1))) / (k + 1) = (N - t) / (k + 1) - 1).
    { replace (N - (t + (k + 1))) with (N - t + (-1) * (k + 1)) by lia.
      rewrite Z.div_add by lia. lia. }
    rewrite lost_from_next by done.
    rewrite (IH (t + (k + 1))); [|by rewrite residue_period|lia|lia].
    unfold progression. rewrite Hdiv, Hn.
    replace (Z.to_nat ((N - t) / (k + 1) - 1 + 1)) with n by lia.
    cbn [seq map]. f_equal; [lia|].
    rewrite <- List.seq_shift, List.map_map.
    apply List.map_ext. intros j. lia.
Qed.

Lemma residue_of_remainder : residue k N (N mod (k + 1)) = 0.
Proof.
  unfold residue. pose proof (Z.div_mod N (k + 1) ltac:(lia)).
  replace (N - N mod (k + 1)) with (N / (k + 1) * (k + 1)) by lia.
  apply Z.mod_mul. lia.
Qed.

(** All lost states: the progression from [N mod (k + 1)]. *)
Lemma lost_from_0 :
  0 <= N -> lost_from k N 0 = progression k N (N mod (k + 1)).
Proof.
  intros HN. pose proof (Z.mod_pos_bound N (k + 1) ltac:(lia)) as Hr.
  pose proof (Z.mod_le N (k + 1) ltac:(lia) ltac:(lia)) as Hle.
  rewrite (lost_from_skip (Z.to_nat (N mod (k + 1))) 0).
  - replace (0 + Z.of_nat (Z.to_nat (N mod (k + 1)))) with (N mod (k + 1)) by lia.
    eapply lost_from_progression; [apply residue_of_remainder|lia|done].
  - intros x Hx E.
    pose proof (residue_step k N Hk x (N mod (k + 1) - x) ltac:(lia)) as [H _].
    replace (x + (N mod (k + 1) - x)) with (N mod (k + 1)) in H by lia.
    specialize (H residue_of_remainder). lia.
Qed.
End lost_states.

(** ** The table of [demo_bellman_table] *)

Section bellman_table.
Variables k N : Z.
Hypothesis Hk : 1 <= k.
Variable V : list num.
Variable policy : list (option Z).
Hypothesis Hfilled : filled_from k N 0 V policy.

Lemma read_policy_entry (s : Z) :
  0 <= s <= N -> py_getitem policy s = Ok (policy_entry k N s).
Proof.
  intros Hs. apply py_getitem_lookup; [lia|].
  destruct Hfilled as (_ & _ & H). by apply H.
Qed.

Lemma lost_state_value (s : Z) :
  num_eqb (Int (closed_form s k N)) (Int (-1)) = lost_state k N s.
Proof.
  rewrite closed_form_residue. unfold lost_state.
  by destruct (residue k N s =? 0).
Qed.

Lemma table_rows_filled (n : nat) :
  forall a, 0 <= a -> N + 1 - a = Z.of_nat n ->
  table_rows k N V policy (py_range a (N + 1))
  = Ok (map (row_at k N) (py_range a (N + 1))).
Proof.
  induction n as [|n IH]; intros a Ha Hn.
  - by rewrite py_range_nil by lia.
  - rewrite py_range_cons by lia. cbn [table_rows map]. unfold py_mod.
    destruct (Z.eqb_spec (k + 1) 0); [lia|]. cbn [mbind res_bind].
    rewrite (read_value k N V policy Hfilled) by lia. cbn [mbind res_bind].
    rewrite read_policy_entry by lia. cbn [mbind res_bind].
    rewrite IH by lia. cbn [mbind res_bind]. cbv zeta.
    by rewrite lost_state_value.
Qed.

Lemma losing_positions_filled (n : nat) :
  forall a, 0 <= a -> N + 1 - a = Z.of_nat n ->
  losing_positions V (py_range a (N + 1)) = Ok (lost_from k N a).
Proof.
  induction n as [|n IH]; intros a Ha Hn.
  - unfold lost_from. by rewrite py_range_nil by lia.
  - unfold lost_from. rewrite py_range_cons by lia.
    cbn [losing_positions List.filter].
    rewrite (read_value k N V policy Hfilled) by lia. cbn [mbind res_bind].
    rewrite IH by lia. cbn [mbind res_bind].
    by rewrite lost_state_value.
Qed.
End bellman_table.

Lemma py_range_lookup (a b s : Z) :
  a <= s < b -> py_range a b !! Z.to_nat (s - a) = Some s.
Proof.
  intros Hs. unfold py_range.
  rewrite list_lookup_fmap, lookup_seq_lt by lia. cbn. f_equal. lia.
Qed.

Lemma demo_bellman_table_closed (k N : Z) :
  1 <= k -> 0 <= N ->
  demo_bellman_table k N
  = Ok (map (row_at k N) (py_range 0 (N + 1)), lost_from k N 0).
Proof.
  intros Hk HN.
  destruct (solve_addition_game_closed k N Hk HN) as (V & policy & Hsol & HF).
  unfold demo_bellman_table. rewrite Hsol. cbn [mbind res_bind sol_V sol_policy].
  unfold py_mod. destruct (Z.eqb_spec (k + 1) 0); [lia|]. cbn [mbind res_bind].
  rewrite (table_rows_filled k N Hk V policy HF (Z.to_nat (N + 1))) by lia.
  cbn [mbind res_bind].
  by rewrite (losing_positions_filled k N V policy HF (Z.to_nat (N + 1))) by lia.
Qed.

(** X12. For every [k >= 1] and [N >= 0], the table of [demo_bellman_table]
    has one line per state [0..N], in order; the line of state [s] shows
    the remainder [(N - s) mod (k + 1)], reads [LOSE (L)] exactly when that
    remainder is 0, shows the remainder as the optimal move when it is not
    0 and the move 1 when it is, and shows [any*] at [s = N] only. *)
Theorem X12_table_lines (k N s : Z) :
  1 <= k -> 0 <= s <= N ->
  exists rows losing row,
    demo_bellman_table k N = Ok (rows, losing) /\
    Z.of_nat (length rows) = N + 1 /\
    rows !! Z.to_nat s = Some row /\
    row_s row = s /\
    row_r row = (N - s) mod (k + 1) /\
    (row_lose row = true <-> row_r row = 0) /\
    (row_V row = Int (if row_lose row then -1 else 1)) /\
    row_move row
    = (if s =? N then None
       else Some (if row_r row =? 0 then 1 else row_r row)).
Proof.
  intros Hk Hs. eexists _, _, (row_at k N s).
  split; [apply demo_bellman_table_closed; lia|].
  split; [rewrite length_map; unfold py_range; rewrite length_map, length_seq; lia|].
  split.
  { rewrite list_lookup_fmap.
    replace (Z.to_nat s) with (Z.to_nat (s - 0)) by (f_equal; lia).
    by rewrite py_range_lookup by lia. }
  cbn. split; [done|]. split; [done|].
  unfold lost_state, residue, policy_entry, policy_closed, residue, closed_form.
  split; [apply Z.eqb_eq|]. split; [by destruct (_ =? 0)|done].
Qed.

Lemma X12_witness :
  exists rows losing row,
    demo_bellman_table 3 10 = Ok (rows, losing) /\
    Z.of_nat (length rows) = 10 + 1 /\
    rows !! Z.to_nat 6 = Some row /\
    row_s row = 6 /\
    row_r row = (10 - 6) mod (3 + 1) /\
    (row_lose row = true <-> row_r row = 0) /\
    (row_V row = Int (if row_lose row then -1 else 1)) /\
    row_move row
    = (if 6 =? 10 then None
       else Some (if row_r row =? 0 then 1 else row_r row)).
Proof. apply (X12_table_lines 3 10 6); lia. Defined.

(** X13. For every [k >= 1] and [N >= 0], the losing positions listed by
    [demo_bellman_table] are the sums [r], [r + (k + 1)], [r + 2 (k + 1)],
    ..., [N], where [r = N mod (k + 1)], in this order: [N / (k + 1) + 1] of
    them, the positions at a multiple of [k + 1] from [N]. *)
Theorem X13_losing_positions (k N : Z) :
  1 <= k -> 0 <= N ->
  exists rows,
    demo_bellman_table k N
    = Ok (rows, map (fun j => N mod (k + 1) + Z.of_nat j * (k + 1))
                    (seq 0 (Z.to_nat (N / (k + 1) + 1)))).
Proof.
  intros Hk HN. eexists. rewrite demo_bellman_table_closed by lia.
  rewrite lost_from_0 by lia. unfold progression. do 4 f_equal.
  pose proof (Z.div_mod N (k + 1) ltac:(lia)).
  replace (N - N mod (k + 1)) with (N / (k + 1) * (k + 1)) by lia.
  rewrite Z.div_mul by lia. done.
Qed.

Lemma X13_witness :
  exists rows,
    demo_bellman_table 3 10
    = Ok (rows, map (fun j => 10 mod (3 + 1) + Z.of_nat j * (3 + 1))
                    (seq 0 (Z.to_nat (10 / (3 + 1) + 1)))).
Proof. apply (X13_losing_positions 3 10); lia. Defined.

(** ** The lists of [demo_strategy_walkthrough] *)

Section walkthrough_lists.
Variables k N : Z.
Hypothesis Hk : 1 <= k.

Lemma targets_loop_lost (fuel : nat) :
  forall t targets,
  residue k N t = 0 -> (Z.to_nat (N + 1 - t) < fuel)%nat ->
  targets_loop fuel k N t targets = Some (targets ++ lost_from k N t).
Proof.
  induction fuel as [|f IH]; intros t targets Hr Hfuel; [lia|].
  cbn [targets_loop]. destruct (Z.leb_spec t N).
  - rewrite IH by (rewrite ?residue_period; (done || lia)).
    by rewrite (lost_from_next k N Hk t), <- app_assoc by done.
  - by rewrite lost_from_nil, app_nil_r by lia.
Qed.

Lemma lost_from_remainder :
  0 <= N -> lost_from k N (N mod (k + 1)) = lost_from k N 0.
Proof.
  intros HN. pose proof (Z.mod_pos_bound N (k + 1) ltac:(lia)) as Hr.
  rewrite (lost_from_skip k N (Z.to_nat (N mod (k + 1))) 0).
  - f_equal. lia.
  - intros x Hx E.
    pose proof (residue_step k N Hk x (N mod (k + 1) - x) ltac:(lia)) as [H _].
    replace (x + (N mod (k + 1) - x)) with (N mod (k + 1)) in H by lia.
    specialize (H (residue_of_remainder k N Hk)). lia.
Qed.

Lemma residue_0 : residue k N 0 = N mod (k + 1).
Proof. unfold residue. by rewrite Z.sub_0_r. Qed.

(** The multiples of [k + 1] up to [N] are the lost states after 0 when 0
    is lost. *)
Lemma multiples_lost :
  0 <= N -> N mod (k + 1) = 0 ->
  map (fun j => j * (k + 1)) (py_range 1 (N / (k + 1) + 1)) = lost_from k N 1.
Proof.
  intros HN Hr.
  pose proof (Z.div_pos N (k + 1) ltac:(lia) ltac:(lia)) as Hq.
  rewrite (lost_from_skip k N (Z.to_nat k) 1).
  2:{ intros x Hx. apply (residue_between k N Hk 0); [by rewrite residue_0|lia]. }
  replace (1 + Z.of_nat (Z.to_nat k)) with (k + 1) by lia.
  assert (Hdiv : (N - (k + 1)) / (k + 1) + 1 = N / (k + 1)).
  { replace (N - (k + 1)) with (N + (-1) * (k + 1)) by lia.
    rewrite Z.div_add by lia. lia. }
  assert (Hres : residue k N (k + 1) = 0).
  { pose proof (residue_period k N Hk 0) as H.
    replace (0 + (k + 1)) with (k + 1) in H by lia. by rewrite H, residue_0. }
  rewrite (lost_from_progression k N Hk (Z.to_nat (N / (k + 1))) (k + 1))
    by (done || lia).
  unfold progression, py_range. rewrite Hdiv, List.map_map.
  replace (N / (k + 1) + 1 - 1) with (N / (k + 1)) by lia.
  apply List.map_ext. intros j. lia.
Qed.
End walkthrough_lists.

(** With a negative step the loop moves away from [N] and never ends. *)
Lemma targets_loop_diverges (k N : Z) (fuel : nat) :
  k + 1 < 0 ->
  forall t targets, t <= N -> targets_loop fuel k N t targets = None.
Proof.
  intros Hneg. induction fuel as [|f IH]; intros t targets Ht; [done|].
  cbn [targets_loop]. destruct (Z.leb_spec t N); [|lia]. apply IH. lia.
Qed.

(** ** The sums the winning side reaches *)

Lemma sums_of_cons (p : player) (l : move_line) (lines : list move_line) :
  sums_of p (l :: lines)
  = if player_eqb (ml_player l) p then ml_sum l :: sums_of p lines
    else sums_of p lines.
Proof. unfold sums_of. cbn. by destruct (player_eqb _ p). Qed.

Lemma player_eqb_mover (a b : bool) :
  player_eqb (mover a) (mover b) = Bool.eqb a b.
Proof. by destruct a, b. Qed.

Section sums_of_play.
Variables k N : Z.
Hypothesis Hk : 1 <= k.
Variable V : list num.
Variable policy : list (option Z).
Hypothesis Hfilled : filled_from k N 0 V policy.
Variable w : bool.
Variables p1 p2 : bool.
Hypothesis Hw : (if w then p1 else p2) = true.

(** The optimal side moves from lost state to lost state: its sums from
    state [s] on are the lost states above [s]. *)
Lemma play_loop_sums (fuel : nat) :
  forall s is_p1 move_num log,
  0 <= s <= N -> (Z.to_nat (N - s) < fuel)%nat ->
  on_course k N w s is_p1 ->
  exists out lines,
    play_loop fuel k N V policy p1 p2 s is_p1 move_num log = Some (Ok out) /\
    out_log out = log ++ lines /\
    sums_of (mover w) lines = lost_from k N (s + 1).
Proof.
  induction fuel as [|f IH]; intros s is_p1 move_num log Hs Hfuel Hon; [lia|].
  cbn [play_loop]. cbv zeta.
  rewrite (read_value k N V policy Hfilled) by lia.
  destruct (Z.leb_spec s N); [|lia]. cbn [mbind res_bind].
  unfold on_course in Hon.
  destruct (Z.eqb_spec s N) as [->|Hne].
  - rewrite residue_at_N in Hon by done.
    destruct (Bool.eqb is_p1 w) eqn:E; [done|].
    eexists _, [_]. split; [reflexivity|]. cbn [out_log].
    split; [reflexivity|].
    rewrite sums_of_cons. cbn [ml_player]. rewrite player_eqb_mover, E.
    by rewrite lost_from_nil by lia.
  - destruct (Bool.eqb is_p1 w) eqn:E.
    + pose proof E as E'. apply Bool.eqb_prop in E'.
      rewrite (optimal_flag w p1 p2 Hw _ E').
      rewrite (move_won k N V policy Hfilled) by (auto; lia).
      pose proof (residue_bounds k N Hk s).
      pose proof (residue_le k N Hk s ltac:(lia)).
      destruct (Z.gtb_spec (s + residue k N s) N); [lia|].
      rewrite (read_value k N V policy Hfilled) by lia.
      assert (Hnext : residue k N (s + residue k N s) = 0)
        by (apply (residue_step k N Hk); lia).
      destruct (IH (s + residue k N s) (negb is_p1) (move_num + 1)
                  (log ++ [MoveLine move_num (mover is_p1) s
                             (Some (Int (closed_form s k N)))
                             (residue k N s) (s + residue k N s)])
                  ltac:(lia) ltac:(lia))
        as (out & lines & -> & Hlog & Hsums).
      { unfold on_course. subst is_p1.
        by replace (Bool.eqb (negb w) w) with false by by destruct w. }
      eexists out, (_ :: lines). split; [reflexivity|].
      split; [by rewrite Hlog, <- app_assoc|].
      rewrite sums_of_cons. cbn [ml_player ml_sum].
      rewrite player_eqb_mover, E, Hsums.
      rewrite (lost_from_skip k N (Z.to_nat (residue k N s - 1)) (s + 1)).
      * replace (s + 1 + Z.of_nat (Z.to_nat (residue k N s - 1)))
          with (s + residue k N s) by lia.
        by rewrite (lost_from_cons k N (s + residue k N s)) by (done || lia).
      * intros x Hx Ex.
        pose proof (residue_step k N Hk s (x - s) ltac:(lia)) as [Hx' _].
        replace (s + (x - s)) with x in Hx' by lia. specialize (Hx' Ex). lia.
    + rewrite (move_lost k N Hk V policy Hfilled) by (auto; lia).
      destruct (Z.gtb_spec (s + 1) N); [lia|].
      rewrite (read_value k N V policy Hfilled) by lia.
      assert (Hnext : residue k N (s + 1) <> 0).
      { intros E1. apply (residue_step k N Hk) in E1; lia. }
      destruct (IH (s + 1) (negb is_p1) (move_num + 1)
                  (log ++ [MoveLine move_num (mover is_p1) s
                             (Some (Int (closed_form s k N))) 1 (s + 1)])
                  ltac:(lia) ltac:(lia))
        as (out & lines & -> & Hlog & Hsums).
      { unfold on_course.
        by replace (Bool.eqb (negb is_p1) w) with true by by destruct is_p1, w. }
      eexists out, (_ :: lines). split; [reflexivity|].
      split; [by rewrite Hlog, <- app_assoc|].
      rewrite sums_of_cons. cbn [ml_player ml_sum].
      rewrite player_eqb_mover, E, Hsums.
      rewrite (lost_from_skip k N 1 (s + 1)); [f_equal; lia|].
      intros x Hx. by replace x with (s + 1) by lia.
Qed.
End sums_of_play.

(** The optimal game from sum 0: the winner and the sums it reaches. *)
Lemma optimal_game_closed (fuel : nat) (k N : Z) :
  1 <= k -> 0 <= N -> (Z.to_nat N < fuel)%nat ->
  exists out,
    demo_game_play fuel k N true true = Some (Ok out) /\
    out_winner out = mover (negb (N mod (k + 1) =? 0)) /\
    sums_of (out_winner out) (out_log out) = lost_from k N 1.
Proof.
  intros Hk HN Hfuel.
  destruct (solve_addition_game_closed k N Hk HN) as (V & policy & Hsol & HF).
  set (w := negb (N mod (k + 1) =? 0)).
  assert (Hw : (if w then true else true) = true) by by destruct w.
  destruct (play_loop_winner k N Hk V policy HF w true true Hw
              fuel 0 true 1 [] ltac:(lia) ltac:(lia) (on_course_start k N))
    as (out & _ & _ & Hrun & Hwin & _).
  destruct (play_loop_sums k N Hk V policy HF w true true Hw
              fuel 0 true 1 [] ltac:(lia) ltac:(lia) (on_course_start k N))
    as (out' & lines & Hrun' & Hlog & Hsums).
  rewrite Hrun in Hrun'. injection Hrun' as <-. cbn [app] in Hlog. subst lines.
  exists out. unfold demo_game_play. rewrite Hsol. cbn [sol_V sol_policy].
  split; [done|]. split; [done|]. by rewrite Hwin.
Qed.

(** What [demo_strategy_walkthrough] lists and plays. *)
Lemma demo_strategy_walkthrough_closed (fuel : nat) (k N : Z) :
  1 <= k -> 0 <= N -> (Z.to_nat N < fuel)%nat ->
  exists out,
    demo_game_play fuel k N true true = Some (Ok out) /\
    demo_strategy_walkthrough fuel k N
    = Some (Ok (if N mod (k + 1) =? 0
                then LosingStart (lost_from k N 1)
                else WinningStart (N mod (k + 1)) (lost_from k N 0), out)).
Proof.
  intros Hk HN Hfuel.
  destruct (optimal_game_closed fuel k N Hk HN Hfuel) as (out & Hrun & _).
  exists out. split; [done|]. unfold demo_strategy_walkthrough, py_mod.
  destruct (Z.eqb_spec (k + 1) 0); [lia|].
  pose proof (Z.mod_pos_bound N (k + 1) ltac:(lia)) as Hr.
  destruct (Z.eqb_spec (N mod (k + 1)) 0) as [E|E].
  - by rewrite multiples_lost, Hrun by done.
  - rewrite (targets_loop_lost k N Hk)
      by (rewrite ?residue_of_remainder; (done || lia)).
    cbn [app]. by rewrite lost_from_remainder, Hrun by done.
Qed.

(** X14. For every [k >= 1] and [N >= 0], with iterations enough for a
    game, [demo_strategy_walkthrough] returns; the target sums it lists for
    Player I when [k + 1] does not divide [N] are the losing positions listed
    by [demo_bellman_table], and the multiples of [k + 1] it lists when
    [k + 1] divides [N] are those losing positions but the first, 0. *)
Theorem X14_walkthrough_lists_the_losing_positions (fuel : nat) (k N : Z) :
  1 <= k -> 0 <= N -> (Z.to_nat N < fuel)%nat ->
  exists listed out rows losing,
    demo_strategy_walkthrough fuel k N = Some (Ok (listed, out)) /\
    demo_bellman_table k N = Ok (rows, losing) /\
    match listed with
    | WinningStart r targets =>
        r = N mod (k + 1) /\ r <> 0 /\ targets = losing
    | LosingStart multiples =>
        N mod (k + 1) = 0 /\ losing = 0 :: multiples
    end.
Proof.
  intros Hk HN Hfuel.
  destruct (demo_strategy_walkthrough_closed fuel k N Hk HN Hfuel)
    as (out & _ & Hwalk).
  eexists _, out, _, _. split; [exact Hwalk|].
  split; [by apply demo_bellman_table_closed|].
  destruct (Z.eqb_spec (N mod (k + 1)) 0) as [E|E]; [|done].
  split; [done|].
  rewrite (lost_from_cons k N 0) by (rewrite ?residue_0; (done || lia)).
  done.
Qed.

Lemma X14_witness :
  exists listed out rows losing,
    demo_strategy_walkthrough 13 3 12 = Some (Ok (listed, out)) /\
    demo_bellman_table 3 12 = Ok (rows, losing) /\
    match listed with
    | WinningStart r targets =>
        r = 12 mod (3 + 1) /\ r <> 0 /\ targets = losing
    | LosingStart multiples =>
        12 mod (3 + 1) = 0 /\ losing = 0 :: multiples
    end.
Proof.
  apply (X14_walkthrough_lists_the_losing_positions 13 3 12); lia.
Defined.

(** X15. For every [k >= 1] and [N >= 0], the game [demo_strategy_walkthrough]
    plays after its lists bears them out: when [k + 1] does not divide [N],
    Player I wins and the sums its moves reach are the target sums listed,
    in order; when [k + 1] divides [N], Player II wins and the sums its
    moves reach are the multiples of [k + 1] listed. *)
Theorem X15_walkthrough_game_follows_the_list (fuel : nat) (k N : Z) :
  1 <= k -> 0 <= N -> (Z.to_nat N < fuel)%nat ->
  exists listed out,
    demo_strategy_walkthrough fuel k N = Some (Ok (listed, out)) /\
    match listed with
    | WinningStart r targets =>
        out_winner out = PlayerI /\ sums_of PlayerI (out_log out) = targets
    | LosingStart multiples =>
        out_winner out = PlayerII /\ sums_of PlayerII (out_log out) = multiples
    end.
Proof.
  intros Hk HN Hfuel.
  destruct (optimal_game_closed fuel k N Hk HN Hfuel)
    as (out & Hrun & Hwin & Hsums).
  destruct (demo_strategy_walkthrough_closed fuel k N Hk HN Hfuel)
    as (out' & Hrun' & Hwalk).
  rewrite Hrun in Hrun'. injection Hrun' as <-.
  eexists _, out. split; [exact Hwalk|].
  rewrite Hwin in Hsums.
  destruct (Z.eqb_spec (N mod (k + 1)) 0) as [E|E]; cbn in Hwin, Hsums.
  - by split.
  - split; [done|]. rewrite Hsums.
    rewrite (lost_from_skip k N 1 0); [done|].
    intros x Hx. replace x with 0 by lia. by rewrite residue_0.
Qed.

Lemma X15_witness :
  exists listed out,
    demo_strategy_walkthrough 11 3 10 = Some (Ok (listed, out)) /\
    match listed with
    | WinningStart r targets =>
        out_winner out = PlayerI /\ sums_of PlayerI (out_log out) = targets
    | LosingStart multiples =>
        out_winner out = PlayerII /\ sums_of PlayerII (out_log out) = multiples
    end.
Proof. apply (X15_walkthrough_game_follows_the_list 11 3 10); lia. Defined.

(** X16. With [k < -1], [N >= 0] and [N mod (k + 1)] not 0,
    [demo_strategy_walkthrough] never returns: the step [k + 1] of its
    [while t <= N] loop is negative and [t] starts at or below 0, so no
    number of iterations ends the loop. *)
Theorem X16_walkthrough_loops_forever (fuel : nat) (k N : Z) :
  k < -1 -> 0 <= N -> N mod (k + 1) <> 0 ->
  demo_strategy_walkthrough fuel k N = None.
Proof.
  intros Hk HN Hr. unfold demo_strategy_walkthrough, py_mod.
  destruct (Z.eqb_spec (k + 1) 0); [lia|].
  destruct (Z.eqb_spec (N mod (k + 1)) 0); [done|].
  pose proof (Z.mod_neg_bound N (k + 1) ltac:(lia)).
  by rewrite targets_loop_diverges by lia.
Qed.

Lemma X16_witness : demo_strategy_walkthrough 1000 (-3) 5 = None.
Proof.
  apply (X16_walkthrough_loops_forever 1000 (-3) 5); [lia|lia|discriminate].
Defined.

(** ** The comparison of the methods and the parametric table *)

(** X17. For every [k >= 1] and [N >= 0], [demo_comparison_methods] returns
    and its closing line [All methods agree] is true: the value of the
    table, of plain minimax, of alpha-beta and of the formula
    [-1 if N % (k + 1) == 0 else +1] are one value; the winner named is
    Player II exactly when [k + 1] divides [N]; and the line on the nodes
    saved is printed exactly when alpha-beta counted strictly fewer nodes,
    which it does for [k >= 2] and [N >= k + 2]. *)
Theorem X17_all_methods_agree (k N : Z) :
  1 <= k -> 0 <= N ->
  exists c,
    demo_comparison_methods k N = Some (Ok c) /\
    cmp_v_dp c = Int (cmp_v_formula c) /\
    cmp_v_mm c = Int (cmp_v_formula c) /\
    cmp_v_ab c = Int (cmp_v_formula c) /\
    cmp_v_formula c = (if N mod (k + 1) =? 0 then -1 else 1) /\
    cmp_winner c = (if N mod (k + 1) =? 0 then PlayerII else PlayerI) /\
    cmp_nodes_ab c <= cmp_nodes_mm c /\
    (cmp_saved c = true <-> cmp_nodes_ab c < cmp_nodes_mm c) /\
    (2 <= k -> k + 2 <= N -> cmp_saved c = true).
Proof.
  intros Hk HN.
  destruct (solve_addition_game_closed k N Hk HN) as (V & policy & Hsol & HF).
  pose proof (read_value k N V policy HF 0 ltac:(lia)) as Hv.
  destruct (minimax_tree_fuel_closed k N Hk (tree_fuel 0 N) 0 true 0
              ltac:(lia) ltac:(unfold tree_fuel; lia)) as (nmm & Hmm & _).
  destruct (ab_simulates_minimax k N _ 0 true NegInf PosInf 0 0 _ _
              eq_refl eq_refl eq_refl Hmm) as (r & nab & Hab & _ & Hrel & _ & Hle).
  apply ab_rel_full_window in Hrel;
    [subst r|unfold tree_value, closed_form; by destruct (_ =? _)|done..].
  assert (Hlt : 2 <= k -> k + 2 <= N -> nab < nmm).
  { intros Hk2 HN2.
    pose proof (ab_prunes k N Hk2 (tree_fuel 0 N) 0 true 0 0 _ _ _ _
                  ltac:(lia) ltac:(unfold tree_fuel; lia) Hmm Hab). lia. }
  unfold demo_comparison_methods, minimax_tree, minimax_ab_tree.
  rewrite Hsol. cbn [sol_V]. rewrite Hv, Hmm, Hab. unfold py_mod.
  destruct (Z.eqb_spec (k + 1) 0); [lia|].
  eexists. split; [reflexivity|]. cbn.
  unfold tree_value, closed_form. rewrite Z.sub_0_r.
  destruct (N mod (k + 1) =? 0); cbn; repeat split; try done; try lia;
    intros; apply Z.gtb_lt; auto; lia.
Qed.

Lemma X17_witness :
  exists c,
    demo_comparison_methods 4 20 = Some (Ok c) /\
    cmp_v_dp c = Int (cmp_v_formula c) /\
    cmp_v_mm c = Int (cmp_v_formula c) /\
    cmp_v_ab c = Int (cmp_v_formula c) /\
    cmp_v_formula c = (if 20 mod (4 + 1) =? 0 then -1 else 1) /\
    cmp_winner c = (if 20 mod (4 + 1) =? 0 then PlayerII else PlayerI) /\
    cmp_nodes_ab c <= cmp_nodes_mm c /\
    (cmp_saved c = true <-> cmp_nodes_ab c < cmp_nodes_mm c) /\
    (2 <= 4 -> 4 + 2 <= 20 -> cmp_saved c = true).
Proof. apply (X17_all_methods_agree 4 20); lia. Defined.

Lemma parametric_row_closed (k : Z) (N_values : list Z) :
  1 <= k -> Forall (fun N => 0 <= N) N_values ->
  parametric_row k N_values
  = Ok (map (fun N => if N mod (k + 1) =? 0 then PlayerII else PlayerI)
            N_values).
Proof.
  intros Hk. induction N_values as [|N rest IH]; intros Hall; [done|].
  apply Forall_cons in Hall as [HN Hrest]. cbn [parametric_row map].
  destruct (solve_addition_game_closed k N Hk HN) as (V & policy & -> & HF).
  cbn [mbind res_bind sol_V].
  rewrite (read_value k N V policy HF 0) by lia. cbn [mbind res_bind].
  rewrite IH by done. cbn [mbind res_bind]. cbv zeta.
  rewrite lost_state_value. unfold lost_state. by rewrite residue_0.
Qed.

Lemma parametric_rows_closed (k_values N_values : list Z) :
  Forall (fun k => 1 <= k) k_values -> Forall (fun N => 0 <= N) N_values ->
  parametric_rows k_values N_values
  = Ok (map (fun k =>
               map (fun N => if N mod (k + 1) =? 0 then PlayerII else PlayerI)
                   N_values) k_values).
Proof.
  intros Hks HNs. induction k_values as [|k rest IH]; [done|].
  apply Forall_cons in Hks as [Hk Hrest]. cbn [parametric_rows map].
  rewrite parametric_row_closed by done. cbn [mbind res_bind].
  by rewrite IH by done.
Qed.

(** X18. The table of [demo_parametric_analysis], over [k = 2..6] and
    [N = 1..25], marks Player II the winner in exactly the cells where
    [k + 1] divides [N], as its caption says; the same holds of its rows for
    any list of [k >= 1] and of [N >= 0]. *)
Theorem X18_parametric_table (k_values N_values : list Z) :
  Forall (fun k => 1 <= k) k_values -> Forall (fun N => 0 <= N) N_values ->
  parametric_rows k_values N_values
  = Ok (map (fun k =>
               map (fun N => if N mod (k + 1) =? 0 then PlayerII else PlayerI)
                   N_values) k_values) /\
  demo_parametric_analysis
  = Ok (map (fun k =>
               map (fun N => if N mod (k + 1) =? 0 then PlayerII else PlayerI)
                   (py_range 1 26)) (py_range 2 7)).
Proof.
  intros Hks HNs. split; [by apply parametric_rows_closed|].
  apply parametric_rows_closed.
  - eapply Forall_impl; [apply py_range_bounds|]. cbn. lia.
  - eapply Forall_impl; [apply py_range_bounds|]. cbn. lia.
Qed.

Lemma X18_witness :
  parametric_rows [2; 5] [0; 6; 9]
  = Ok (map (fun k =>
               map (fun N => if N mod (k + 1) =? 0 then PlayerII else PlayerI)
                   [0; 6; 9]) [2; 5]) /\
  demo_parametric_analysis
  = Ok (map (fun k =>
               map (fun N => if N mod (k + 1) =? 0 then PlayerII else PlayerI)
                   (py_range 1 26)) (py_range 2 7)).
Proof.
  apply (X18_parametric_table [2; 5] [0; 6; 9]);
    repeat (constructor; try lia).
Defined.

(** ** The printed game tree *)



(** ** How many nodes the searches count *)

Section ab_counts.
Variable child : Z -> num -> num -> Z -> option (num * Z).
Variables s N : Z.
Hypothesis Hchild : forall s' a b m r m',
  child s' a b m = Some (r, m') -> m <= m'.

Lemma ab_max_loop_grows (moves : list Z) :
  forall best alpha beta m r m',
  ab_max_loop child s N moves best alpha beta m = Some (r, m') -> m <= m'.
Proof.
  induction moves as [|i rest IH]; intros best alpha beta m r m' Hrun;
    cbn [ab_max_loop] in Hrun.
  - injection Hrun as _ <-. lia.
  - destruct (if s + i >? N then Some (Int (-1), m)
              else child (s + i) alpha beta m) as [[v m1]|] eqn:E;
      [|discriminate].
    assert (m <= m1).
    { destruct (s + i >? N); [injection E as _ <-; lia|by eapply Hchild]. }
    cbv zeta in Hrun. destruct (num_ge _ beta).
    + injection Hrun as _ <-. lia.
    + apply IH in Hrun. lia.
Qed.

Lemma ab_min_loop_grows (moves : list Z) :
  forall best alpha beta m r m',
  ab_min_loop child s N moves best alpha beta m = Some (r, m') -> m <= m'.
Proof.
  induction moves as [|i rest IH]; intros best alpha beta m r m' Hrun;
    cbn [ab_min_loop] in Hrun.
  - injection Hrun as _ <-. lia.
  - destruct (if s + i >? N then Some (Int 1, m)
              else child (s + i) alpha beta m) as [[v m1]|] eqn:E;
      [|discriminate].
    assert (m <= m1).
    { destruct (s + i >? N); [injection E as _ <-; lia|by eapply Hchild]. }
    cbv zeta in Hrun. destruct (num_ge alpha _).
    + injection Hrun as _ <-. lia.
    + apply IH in Hrun. lia.
Qed.
End ab_counts.

(** Alpha-beta goes down the path of first moves whatever its window: it
    counts at least the states from [s] to [N]. *)
Lemma minimax_ab_tree_fuel_depth (k N : Z) (fuel : nat) :
  1 <= k ->
  forall s p alpha beta m r m',
  s <= N ->
  minimax_ab_tree_fuel fuel s k N p alpha beta m = Some (r, m') ->
  N - s + 1 <= m' - m.
Proof.
  intros Hk. induction fuel as [|f IH]; intros s p alpha beta m r m' Hs Hrun;
    [discriminate|].
  cbn [minimax_ab_tree_fuel] in Hrun. cbv zeta in Hrun.
  destruct (Z.geb_spec s N).
  - injection Hrun as _ <-. lia.
  - assert (Hgrow : forall p' s' a b m0 r0 m0',
              minimax_ab_tree_fuel f s' k N p' a b m0 = Some (r0, m0') ->
              m0 <= m0').
    { intros p' s' a b m0 r0 m0' H0.
      destruct (Z.le_gt_cases s' N) as [Hs'|Hs'].
      - apply IH in H0; lia.
      - destruct f; [discriminate|]. cbn [minimax_ab_tree_fuel] in H0.
        cbv zeta in H0. destruct (Z.geb_spec s' N); [|lia].
        injection H0 as _ <-. lia. }
    rewrite (py_range_cons 1) in Hrun by lia.
    destruct p; cbn [ab_max_loop ab_min_loop] in Hrun.
    + destruct (Z.gtb_spec (s + 1) N); [lia|].
      destruct (minimax_ab_tree_fuel f (s + 1) k N false alpha beta (m + 1))
        as [[r1 m1]|] eqn:E1; [|discriminate].
      apply IH in E1; [|lia]. cbv zeta in Hrun.
      destruct (num_ge _ beta); [injection Hrun as _ <-; lia|].
      apply ab_max_loop_grows in Hrun; [lia|].
      intros ? ? ? ? ? ?. apply Hgrow.
    + destruct (Z.gtb_spec (s + 1) N); [lia|].
      destruct (minimax_ab_tree_fuel f (s + 1) k N true alpha beta (m + 1))
        as [[r1 m1]|] eqn:E1; [|discriminate].
      apply IH in E1; [|lia]. cbv zeta in Hrun.
      destruct (num_ge alpha _); [injection Hrun as _ <-; lia|].
      apply ab_min_loop_grows in Hrun; [lia|].
      intros ? ? ? ? ? ?. apply Hgrow.
Qed.

(** With one move per state the tree is a path. *)
Lemma minimax_tree_fuel_path (N : Z) (fuel : nat) :
  forall s p n v n',
  s <= N ->
  minimax_tree_fuel fuel s 1 N p n = Some (v, n') ->
  n' - n = N - s + 1.
Proof.
  induction fuel as [|f IH]; intros s p n v n' Hs Hrun; [discriminate|].
  cbn [minimax_tree_fuel] in Hrun. cbv zeta in Hrun.
  destruct (Z.geb_spec s N).
  - destruct p; injection Hrun as _ <-; lia.
  - change (py_range 1 (1 + 1)) with [1] in Hrun.
    destruct p; cbn [max_loop min_loop] in Hrun.
    + destruct (Z.leb_spec (s + 1) N); [|lia].
      destruct (minimax_tree_fuel f (s + 1) 1 N false (n + 1))
        as [[v1 n1]|] eqn:E1; [|discriminate].
      apply IH in E1; [|lia]. injection Hrun as _ <-. lia.
    + destruct (Z.leb_spec (s + 1) N); [|lia].
      destruct (minimax_tree_fuel f (s + 1) 1 N true (n + 1))
        as [[v1 n1]|] eqn:E1; [|discriminate].
      apply IH in E1; [|lia]. injection Hrun as _ <-. lia.
Qed.

(** X20. For every [k >= 1], state [s <= N] and window [alpha < beta] of
    game numbers, alpha-beta counts at least the [N - s + 1] states on the
    path of first moves and at most what plain minimax counts; with [k = 1]
    both count exactly [N - s + 1] nodes, there being nothing to prune. *)
Theorem X20_node_counts (k N s : Z) (is_player1 : bool) (alpha beta : num)
    (n m : Z) :
  1 <= k -> 0 <= s <= N ->
  game_num alpha = true -> game_num beta = true -> num_lt alpha beta = true ->
  exists v n' r m',
    minimax_tree s k N is_player1 n = Some (v, n') /\
    minimax_ab_tree s k N is_player1 alpha beta m = Some (r, m') /\
    N - s + 1 <= m' - m <= n' - n /\
    (k = 1 -> m' - m = N - s + 1 /\ n' - n = N - s + 1).
Proof.
  intros Hk Hs Ha Hb Hab. unfold minimax_tree, minimax_ab_tree.
  destruct (minimax_tree_fuel_closed k N Hk (tree_fuel s N) s is_player1 n
              ltac:(lia) ltac:(unfold tree_fuel; lia)) as (n' & Hmm & _).
  destruct (ab_simulates_minimax k N _ s is_player1 alpha beta n m _ _
              Ha Hb Hab Hmm) as (r & m' & Hrun & _ & _ & _ & Hle).
  pose proof (minimax_ab_tree_fuel_depth k N _ Hk s _ _ _ _ _ _
                ltac:(lia) Hrun) as Hdepth.
  eexists _, n', r, m'. split; [exact Hmm|]. split; [exact Hrun|].
  split; [lia|]. intros ->.
  pose proof (minimax_tree_fuel_path N _ s _ _ _ _ ltac:(lia) Hmm). lia.
Qed.

Lemma X20_witness :
  exists v n' r m',
    minimax_tree 2 1 9 true 0 = Some (v, n') /\
    minimax_ab_tree 2 1 9 true (Int (-1)) PosInf 0 = Some (r, m') /\
    9 - 2 + 1 <= m' - 0 <= n' - 0 /\
    (1 = 1 -> m' - 0 = 9 - 2 + 1 /\ n' - 0 = 9 - 2 + 1).
Proof.
  apply (X20_node_counts 1 9 2 true (Int (-1)) PosInf 0 0);
    (lia || reflexivity).
Defined.
